(** * torchdata.dataloader2.reading_service

    A shallow embedding of [reading_service.py]: the merge iterator
    [_IterateQueueDataPipes], the worker pool
    [PrototypeMultiProcessingReadingService] and the
    [DistributedReadingService], with the properties of the design
    document proved (or refuted) on them. *)

From stdpp Require Import base option list gmap strings.
From Stdlib Require Import ZArith Lia.

Set Default Proof Using "Type".
Set Warnings "-clear-no-such-hyp".

(** ** The merge iterator [_IterateQueueDataPipes] *)

Module Merge.
Section merge.
Context {Item : Type}.

(** What one call of [dp.nonblocking_next()] does: it returns a value,
    raises [StopIteration], or raises [communication.iter.NotAvailable]. *)
Inductive outcome :=
| Returned (v : Item)
| StopIteration
| NotAvailable.

(** One future answer of a worker: nothing ready yet, or an item. *)
Inductive tick :=
| NotReady
| Produce (v : Item).

(** The items a worker holds, in the order it delivers them. *)
Definition items (w : list tick) : list Item :=
  omap (λ t, match t with Produce v => Some v | NotReady => None end) w.

(** Modelled from the spec: [QueueWrapper.nonblocking_next] lives in
    [torchdata.dataloader2.communication.iter], which is not part of the
    sources at hand.  A worker answers a finite run of polls (busy, or a
    value) and reports the end of its stream afterwards.  The objects of
    [self.datapipes] are compared by identity
    ([dp not in exclude_datapipes]), so a datapipe is its object identity, a
    number, and the heap [σ] maps it to what that worker still has to
    answer. *)
Definition nonblocking_next (σ : gmap nat (list tick)) (dp : nat)
  : outcome * gmap nat (list tick) :=
  match σ !!! dp with
  | [] => (StopIteration, σ)
  | NotReady :: w => (NotAvailable, <[dp := w]> σ)
  | Produce v :: w => (Returned v, <[dp := w]> σ)
  end.

(** What the iterator does, in order: polls, yields and sleeps of 1 ms. *)
Inductive event :=
| Poll (dp : nat) (r : outcome)
| Yield (v : Item)
| Sleep.

Definition yields (tr : list event) : list Item :=
  omap (λ e, match e with Yield v => Some v | _ => None end) tr.

Definition polled (dp : nat) (tr : list event) : Prop :=
  ∃ r, Poll dp r ∈ tr.

(** The state the three loops thread: trace so far is returned, the heap and
    [exclude_datapipes] are passed on. *)
Definition result : Type := list event * gmap nat (list tick) * list nat.

(** [while forever: try ... except ...]: one visit of a datapipe. *)
Fixpoint forever (fuel : nat) (σ : gmap nat (list tick)) (dp : nat)
    (exclude_datapipes : list nat) : option result :=
  match fuel with
  | 0 => None
  | S fuel =>
      match nonblocking_next σ dp with
      | (Returned value, σ) =>
          Some ([Poll dp (Returned value); Yield value], σ, exclude_datapipes)
      | (StopIteration, σ) =>
          Some ([Poll dp StopIteration], σ, exclude_datapipes ++ [dp])
      | (NotAvailable, σ) =>
          '(tr, σ, ex) ← forever fuel σ dp exclude_datapipes;
          Some (Poll dp NotAvailable :: Sleep :: tr, σ, ex)
      end
  end.

(** [for dp in self.datapipes: if dp not in exclude_datapipes: ...]:
    one scan cycle over (the rest of) the pool. *)
Fixpoint scan (fuel : nat) (σ : gmap nat (list tick)) (datapipes : list nat)
    (exclude_datapipes : list nat) : option result :=
  match datapipes with
  | [] => Some ([], σ, exclude_datapipes)
  | dp :: datapipes =>
      if bool_decide (dp ∉ exclude_datapipes) then
        '(tr1, σ, ex) ← forever fuel σ dp exclude_datapipes;
        '(tr2, σ, ex) ← scan fuel σ datapipes ex;
        Some (tr1 ++ tr2, σ, ex)
      else scan fuel σ datapipes exclude_datapipes
  end.

(** [while len(exclude_datapipes) < len(self.datapipes): ...] *)
Fixpoint while (fuel : nat) (datapipes : list nat) (σ : gmap nat (list tick))
    (exclude_datapipes : list nat) : option result :=
  match fuel with
  | 0 => None
  | S fuel' =>
      if bool_decide (length exclude_datapipes < length datapipes) then
        '(tr1, σ, ex) ← scan fuel σ datapipes exclude_datapipes;
        '(tr2, σ, ex) ← while fuel' datapipes σ ex;
        Some (tr1 ++ tr2, σ, ex)
      else Some ([], σ, exclude_datapipes)
  end.

(** [_IterateQueueDataPipes.__iter__], run until the generator returns. *)
Definition iter (fuel : nat) (datapipes : list nat) (σ : gmap nat (list tick))
  : option result :=
  while fuel datapipes σ [].

(** *** Vocabulary of the statements *)

(** The items a datapipe still owes, none once it is excluded. *)
Definition owed (σ : gmap nat (list tick)) (ex : list nat) (dp : nat)
  : list Item :=
  if bool_decide (dp ∈ ex) then [] else items (σ !!! dp).

(** The polls a datapipe can still take part in before it is excluded. *)
Definition cost (σ : gmap nat (list tick)) (ex : list nat) (dp : nat) : nat :=
  if bool_decide (dp ∈ ex) then 0 else S (length (σ !!! dp)).

Definition budget (σ : gmap nat (list tick)) (ex : list nat)
    (datapipes : list nat) : nat :=
  sum_list (cost σ ex <$> datapipes).

(** [n] rounds of: polled, not available, slept. *)
Fixpoint busy_wait (dp : nat) (n : nat) : list event :=
  match n with
  | 0 => []
  | S n => Poll dp NotAvailable :: Sleep :: busy_wait dp n
  end.

(** The trace of one visit of [dp] in a scan. *)
Inductive visit (dp : nat) : list event → Prop :=
| visit_value n v :
    visit dp (busy_wait dp n ++ [Poll dp (Returned v); Yield v])
| visit_stop n :
    visit dp (busy_wait dp n ++ [Poll dp StopIteration]).

(** How often [dp] handed over a value. *)
Definition is_value_of (dp : nat) (e : event) : bool :=
  match e with Poll d (Returned _) => bool_decide (d = dp) | _ => false end.

Definition values_of (dp : nat) (tr : list event) : nat :=
  length (filter (λ e, is_value_of dp e = true) tr).

Definition has_sleep (tr : list event) : bool :=
  existsb (λ e, match e with Sleep => true | _ => false end) tr.

(** After a datapipe raised [StopIteration] it is not polled any more. *)
Fixpoint stop_respected (tr : list event) : Prop :=
  match tr with
  | [] => True
  | Poll dp StopIteration :: tr => ¬ polled dp tr ∧ stop_respected tr
  | _ :: tr => stop_respected tr
  end.

(** The states in which the [while] test is evaluated. *)
Inductive loop_head (datapipes : list nat) (σ0 : gmap nat (list tick))
  : gmap nat (list tick) → list nat → Prop :=
| head_first : loop_head datapipes σ0 σ0 []
| head_next fuel σ ex tr σ' ex' :
    loop_head datapipes σ0 σ ex →
    length ex < length datapipes →
    scan fuel σ datapipes ex = Some (tr, σ', ex') →
    loop_head datapipes σ0 σ' ex'.

(** The rule of the design document for a busy worker, read on the trace of
    one scan cycle: the worker is left to the next cycle, so after it answered
    [NotAvailable] it is not polled again in this one. *)
Definition busy_left_to_next_scan (tr : list event) : Prop :=
  ∀ t1 dp t2, tr = t1 ++ Poll dp NotAvailable :: t2 → ¬ polled dp t2.

(** Its rule for the delay: a cycle sleeps only if every answer it got was
    [NotAvailable]. *)
Definition backoff_only_if_all_busy (tr : list event) : Prop :=
  has_sleep tr = true → ∀ dp r, Poll dp r ∈ tr → r = NotAvailable.

End merge.
Arguments outcome : clear implicits.
Arguments tick : clear implicits.
Arguments event : clear implicits.
Arguments result : clear implicits.

(** The pool of the design document: three workers holding [a, b], [c] and
    [d, e, f]; the second is busy once before it delivers. *)
Definition abc_pool : gmap nat (list (tick string)) :=
  <[0 := [Produce "a"; Produce "b"]]>
  (<[1 := [NotReady; Produce "c"]]>
  (<[2 := [Produce "d"; Produce "e"; Produce "f"]]> ∅)).

(** Two workers: the first is busy at its first poll, the second never. *)
Definition busy_pool : gmap nat (list (tick string)) :=
  <[0 := [NotReady; Produce "a"]]> (<[1 := [Produce "b"]]> ∅).

End Merge.


(** ** Datapipe graphs *)

Module Graph.

(** [_IterateQueueDataPipes(self.datapipes)] is handed the list object of
    the pool itself, not a copy of it: what the merged stream iterates over
    is whatever [self.datapipes] holds when it is iterated. *)
Inductive list_ref := self_datapipes.

Inductive Iterable :=
| UserIterable (name : string)
| IterateQueueDataPipes (datapipes : list_ref).

(** A pipeline, tail first: the outermost constructor is the stage that
    [isinstance] looks at. *)
Inductive DataPipe :=
| IterableWrapper (iterable : Iterable) (deepcopy : bool)
| ShardingFilter (sharding : option (Z * Z)) (source_datapipe : DataPipe)
| Mapper (fn : string) (source_datapipe : DataPipe)
| FullSync (timeout : Z) (source_datapipe : DataPipe).

(** [torch.utils.data.graph_settings.apply_sharding] is PyTorch's; it is
    taken by its effect on the graph: every sharding filter is told the
    number of instances and the instance id, and no stage is added, removed
    or changed in kind. *)
Fixpoint apply_sharding (datapipe : DataPipe) (num_of_instances instance_id : Z)
  : DataPipe :=
  match datapipe with
  | IterableWrapper it d => IterableWrapper it d
  | ShardingFilter _ src =>
      ShardingFilter (Some (num_of_instances, instance_id))
        (apply_sharding src num_of_instances instance_id)
  | Mapper fn src => Mapper fn (apply_sharding src num_of_instances instance_id)
  | FullSync t src => FullSync t (apply_sharding src num_of_instances instance_id)
  end.

(** [isinstance(datapipe, FullSync)] *)
Definition is_FullSync (datapipe : DataPipe) : bool :=
  match datapipe with FullSync _ _ => true | _ => false end.

(** How many full-sync stages the pipeline has. *)
Fixpoint fullsyncs (datapipe : DataPipe) : nat :=
  match datapipe with
  | IterableWrapper _ _ => 0
  | ShardingFilter _ src | Mapper _ src => fullsyncs src
  | FullSync _ src => S (fullsyncs src)
  end.

End Graph.

(** ** The worker pool [PrototypeMultiProcessingReadingService] *)

Module Pool.
Import Graph.

(** [communication.messages] *)
Inductive request := TerminateRequest.

(** A [multiprocessing.Process] object: its identity, the pipeline it was
    given and the hook it runs first. *)
Record Process := {
  pid : nat;
  source_datapipe : DataPipe;
  call_on_process_init : DataPipe → DataPipe;
}.

(** [QueueWrapper(IterDataPipeQueueProtocolClient(req_queue, res_queue))] *)
Record QueueWrapper := {
  qw_id : nat;
  request_queue : nat;
  response_queue : nat;
}.

Record PrototypeMultiProcessingReadingService := {
  num_workers : Z;
  multiprocessing_context : option string;
  processes : list (Process * nat * nat);
  datapipes : list QueueWrapper;
}.

(** What lies outside the service object: the identities handed out so far
    and the state of the processes that were started. *)
Inductive status := Running | Crashed | Exited.

Record World := {
  next_id : nat;
  state_of : gmap nat status;
}.

Inductive event :=
| Spawn (process req_queue res_queue : nat)
| Start (process : nat)
| Put (queue : nat) (m : request)
| Get (queue : nat)
| Join (process : nat)
| ResetIterator (dp : nat).

Inductive exn := Empty.

(** How a call ends: it returns, it raises, or it never comes back. *)
Inductive outcome (A : Type) :=
| Returns (a : A)
| Raises (e : exn)
| Hangs.
Arguments Returns {A} a.
Arguments Raises {A} e.
Arguments Hangs {A}.

Definition __init__ (num_workers : Z) (multiprocessing_context : option string)
  : PrototypeMultiProcessingReadingService :=
  {| num_workers := num_workers;
     multiprocessing_context := multiprocessing_context;
     processes := [];
     datapipes := [] |}.

Definition init_datapipe_process (num_workers worker_id : Z)
    (datapipe : DataPipe) : DataPipe :=
  apply_sharding datapipe num_workers worker_id.

(** Modelled from the spec: [communication.eventloop] is not part of the
    sources at hand.  [SpawnProcessForDataPipeline] makes a request queue, a
    response queue and a process object over them, each a new object. *)
Definition SpawnProcessForDataPipeline (w : World)
    (multiprocessing_ctx : option string) (datapipe : DataPipe)
    (call_on_process_init : DataPipe → DataPipe)
  : Process * nat * nat * World :=
  let req_queue := next_id w in
  let res_queue := S (next_id w) in
  let process := {| pid := S (S (next_id w));
                    source_datapipe := datapipe;
                    call_on_process_init := call_on_process_init |} in
  (process, req_queue, res_queue,
   {| next_id := S (S (S (next_id w))); state_of := state_of w |}).

(** Modelled from the spec: the loop a worker runs ([DataPipeToQueuesLoop]
    of [communication.eventloop]) first calls the hook on its pipeline and
    serves items of the result. *)
Definition served_datapipe (process : Process) : DataPipe :=
  call_on_process_init process (source_datapipe process).

Definition start (process : Process) (w : World) : World :=
  {| next_id := next_id w;
     state_of := <[pid process := Running]> (state_of w) |}.

(** The body of the loop of [initialize], for one [worker_id]. *)
Definition spawn_worker (datapipe : DataPipe) (worker_id : Z) (w : World)
    (self : PrototypeMultiProcessingReadingService)
  : list event * World * PrototypeMultiProcessingReadingService :=
  let call_inside_process := init_datapipe_process (num_workers self) worker_id in
  let ctx := multiprocessing_context self in
  let '(process, req_queue, res_queue, w) :=
    SpawnProcessForDataPipeline w ctx datapipe call_inside_process in
  let w := start process w in
  let local_datapipe := {| qw_id := next_id w;
                           request_queue := req_queue;
                           response_queue := res_queue |} in
  ([Spawn (pid process) req_queue res_queue; Start (pid process)],
   {| next_id := S (next_id w); state_of := state_of w |},
   {| num_workers := num_workers self;
      multiprocessing_context := multiprocessing_context self;
      processes := processes self ++ [(process, req_queue, res_queue)];
      datapipes := datapipes self ++ [local_datapipe] |}).

(** [for worker_id in range(self.num_workers): ...] *)
Fixpoint spawn_workers (datapipe : DataPipe) (worker_ids : list Z) (w : World)
    (self : PrototypeMultiProcessingReadingService)
  : list event * World * PrototypeMultiProcessingReadingService :=
  match worker_ids with
  | [] => ([], w, self)
  | worker_id :: worker_ids =>
      let '(tr1, w, self) := spawn_worker datapipe worker_id w self in
      let '(tr2, w, self) := spawn_workers datapipe worker_ids w self in
      (tr1 ++ tr2, w, self)
  end.

Definition initialize (w : World)
    (self : PrototypeMultiProcessingReadingService) (datapipe : DataPipe)
  : list event * DataPipe * World * PrototypeMultiProcessingReadingService :=
  if decide (num_workers self = 0%Z) then ([], datapipe, w, self)
  else
    let '(tr, w, self) :=
      spawn_workers datapipe (seqZ 0%Z (num_workers self)) w self in
    (tr, IterableWrapper (IterateQueueDataPipes self_datapipes) false, w, self).

(** What [_IterateQueueDataPipes] finds when it follows its reference. *)
Definition deref (self : PrototypeMultiProcessingReadingService)
    (r : list_ref) : list QueueWrapper :=
  match r with self_datapipes => datapipes self end.

Definition initialize_iteration
    (self : PrototypeMultiProcessingReadingService) : list event :=
  (λ dp, ResetIterator (qw_id dp)) <$> datapipes self.

(** [Queue.get(block=True, timeout=None)] of Python's [multiprocessing]:
    without a timeout it waits for an item however long that takes; with
    one it raises [Empty] when nothing came in time.  [arrival] is the moment
    an item is there to be taken, if ever. *)
Inductive get_result := Got | RaisesEmpty | Blocks.

Definition Queue_get (timeout : option nat) (arrival : option nat)
  : get_result :=
  match timeout, arrival with
  | None, Some _ => Got
  | None, None => Blocks
  | Some t, Some a => if decide (a ≤ t) then Got else RaisesEmpty
  | Some t, None => RaisesEmpty
  end.

(** A running worker answers a [TerminateRequest] at once and exits; one
    that is not running never answers. *)
Definition response_arrival (w : World) (process : Process) : option nat :=
  match state_of w !! pid process with
  | Some Running => Some 0
  | _ => None
  end.

Definition join (process : Process) (w : World) : World :=
  {| next_id := next_id w;
     state_of := <[pid process := Exited]> (state_of w) |}.

(** [clean_me(process, req_queue, res_queue)] of [finalize]:
    [req_queue.put(TerminateRequest()); _ = res_queue.get(); process.join()] *)
Definition clean_me (w : World) (entry : Process * nat * nat)
  : list event * outcome World :=
  let '(process, req_queue, res_queue) := entry in
  match Queue_get None (response_arrival w process) with
  | Got =>
      ([Put req_queue TerminateRequest; Get res_queue; Join (pid process)],
       Returns (join process w))
  | RaisesEmpty =>
      ([Put req_queue TerminateRequest; Get res_queue], Raises Empty)
  | Blocks =>
      ([Put req_queue TerminateRequest; Get res_queue], Hangs)
  end.

(** [for process, req_queue, res_queue in self.processes: clean_me(...)] *)
Fixpoint clean_all (w : World) (processes : list (Process * nat * nat))
  : list event * outcome World :=
  match processes with
  | [] => ([], Returns w)
  | entry :: processes =>
      match clean_me w entry with
      | (tr1, Returns w) =>
          let '(tr2, o) := clean_all w processes in (tr1 ++ tr2, o)
      | (tr1, Raises e) => (tr1, Raises e)
      | (tr1, Hangs) => (tr1, Hangs)
      end
  end.

Definition finalize (w : World) (self : PrototypeMultiProcessingReadingService)
  : list event * outcome (World * PrototypeMultiProcessingReadingService) :=
  match clean_all w (processes self) with
  | (tr, Returns w) =>
      (tr, Returns (w, {| num_workers := num_workers self;
                          multiprocessing_context := multiprocessing_context self;
                          processes := [];
                          datapipes := datapipes self |}))
  | (tr, Raises e) => (tr, Raises e)
  | (tr, Hangs) => (tr, Hangs)
  end.

(** *** Vocabulary of the statements *)

(** The two queues of a pool entry. *)
Definition channels (entry : Process * nat * nat) : list nat :=
  [entry.1.2; entry.2].

(** A worker that dies: something the world does to a process. *)
Definition crash (process : nat) (w : World) : World :=
  {| next_id := next_id w;
     state_of := <[process := Crashed]> (state_of w) |}.

Definition empty_world : World := {| next_id := 0; state_of := ∅ |}.

(** The processes a trace started. *)
Definition started (tr : list event) : list nat :=
  omap (λ e, match e with Start p => Some p | _ => None end) tr.

(** A pipeline to run, and a pool of two workers made for it in an empty
    world: queues 0, 1 and process 2 for worker 0; queues 4, 5 and process
    6 for worker 1. *)
Definition numbers : DataPipe :=
  Mapper "double"
    (ShardingFilter None (IterableWrapper (UserIterable "range") true)).

Definition two_workers
  : list event * DataPipe * World * PrototypeMultiProcessingReadingService :=
  initialize empty_world (__init__ 2 None) numbers.

(** The claim of the design document on the termination handshake: the wait
    for the acknowledgement is bounded and a timeout is raised when it
    expires, so [finalize] always comes back, with a result or an error. *)
Definition handshake_is_bounded : Prop :=
  ∀ w self, (finalize w self).2 ≠ Hangs.

End Pool.

(** ** [DistributedReadingService] *)

Module Dist.
Import Graph.

(** The ambient state of [torch.distributed]. *)
Record Runtime := {
  is_available : bool;
  is_initialized : bool;
  get_world_size : Z;
  get_rank : Z;
}.

Inductive exn := RuntimeError (msg : string).

Inductive result (A : Type) :=
| Ok (a : A)
| Raise (e : exn).
Arguments Ok {A} a.
Arguments Raise {A} e.

(** [dist.new_group(backend=..., timeout=timedelta(seconds=...))] *)
Record ProcessGroup := {
  backend : string;
  timeout_seconds : Z;
}.

Record DistributedReadingService := {
  _world_size : Z;
  _rank : Z;
  _datapipe : option DataPipe;
  _timeout : Z;
  _pg : option ProcessGroup;
}.

Definition __init__ (rt : Runtime) (timeout : Z)
  : result DistributedReadingService :=
  if negb (is_available rt) then
    Raise (RuntimeError "Torch Distributed is required to be available")
  else
    Ok {| _world_size := 1%Z;
          _rank := 0%Z;
          _datapipe := None;
          _timeout := timeout;
          _pg := None |}.

(** The service object is returned along with the result, so that what a
    failed call left of it can be read off. *)
Definition initialize (rt : Runtime) (self : DistributedReadingService)
    (datapipe : DataPipe) : result DataPipe * DistributedReadingService :=
  if negb (is_available rt && is_initialized rt) then
    (Raise (RuntimeError "Torch Distributed is required to be initialized"),
     self)
  else
    let world_size := get_world_size rt in
    let rank := get_rank rt in
    let pg := {| backend := "gloo"; timeout_seconds := _timeout self |} in
    let datapipe := apply_sharding datapipe world_size rank in
    let datapipe :=
      if negb (is_FullSync datapipe) then FullSync (_timeout self) datapipe
      else datapipe in
    (Ok datapipe,
     {| _world_size := world_size;
        _rank := rank;
        _datapipe := Some datapipe;
        _timeout := _timeout self;
        _pg := Some pg |}).

Definition finalize (self : DistributedReadingService)
  : DistributedReadingService :=
  {| _world_size := _world_size self;
     _rank := _rank self;
     _datapipe := _datapipe self;
     _timeout := _timeout self;
     _pg := None |}.

(** *** Vocabulary of the statements *)

(** Rank 1 of 4 in a runtime the caller has started, a process without a
    distributed runtime, and a service made with a timeout of 30 minutes. *)
Definition rank1of4 : Runtime :=
  {| is_available := true; is_initialized := true;
     get_world_size := 4; get_rank := 1 |}.

Definition no_runtime : Runtime :=
  {| is_available := false; is_initialized := false;
     get_world_size := 1; get_rank := 0 |}.

Definition service30 : DistributedReadingService :=
  {| _world_size := 1; _rank := 0; _datapipe := None; _timeout := 1800;
     _pg := None |}.

Definition shards : DataPipe :=
  ShardingFilter None (IterableWrapper (UserIterable "files") true).

End Dist.

(** ** More vocabulary for the merge iterator *)

Module MergeTrace.
Import Merge.
Section trace.
Context {Item : Type}.

(** What a poll gets for one tick of a worker, and all the answers a worker
    gives until it is excluded. *)
Definition answer (t : tick Item) : outcome Item :=
  match t with NotReady => NotAvailable | Produce v => Returned v end.

Definition answers (w : list (tick Item)) : list (outcome Item) :=
  (answer <$> w) ++ [StopIteration].

(** The answers [dp] gave in a trace, in order. *)
Definition answers_of (dp : nat) (tr : list (event Item))
  : list (outcome Item) :=
  omap (λ e, match e with
             | Poll d r => if decide (d = dp) then Some r else None
             | _ => None
             end) tr.

(** What is still to come from [dp]: nothing once it is excluded. *)
Definition pending (σ : gmap nat (list (tick Item))) (ex : list nat)
    (dp : nat) : list (outcome Item) :=
  if bool_decide (dp ∈ ex) then [] else answers (σ !!! dp).

(** The values handed over in a trace, each with the datapipe it came
    from. *)
Definition deliveries (tr : list (event Item)) : list (nat * Item) :=
  omap (λ e, match e with Poll d (Returned v) => Some (d, v) | _ => None end)
    tr.

Definition delivered_by (dp : nat) (tr : list (event Item)) : list Item :=
  omap (λ x, if decide (x.1 = dp) then Some x.2 else None) (deliveries tr).

(** The next item of a worker, if it has one left. *)
Definition next_item (σ : gmap nat (list (tick Item))) (dp : nat)
  : option (nat * Item) :=
  (λ v, (dp, v)) <$> head (items (σ !!! dp)).

(** How often the iterator slept, and how often a worker will be busy. *)
Definition sleeps (tr : list (event Item)) : nat :=
  length (omap (λ e, match e with Sleep => Some () | _ => None end) tr).

Definition busy (w : list (tick Item)) : nat :=
  length (omap (λ t, match t with NotReady => Some () | _ => None end) w).

Definition waits (σ : gmap nat (list (tick Item))) (ex : list nat)
    (dp : nat) : nat :=
  if bool_decide (dp ∈ ex) then 0 else busy (σ !!! dp).

End trace.

(** A pool in which datapipe 0 is listed twice. *)
Definition twice_listed : list nat := [0; 1; 0].

End MergeTrace.

(** ** More vocabulary for the worker pool *)

Module PoolInv.
Import Graph Pool.

(** The objects a pool holds on to: each queue wrapper with its two queues,
    and the processes. *)
Definition wrapper_objects (d : QueueWrapper) : list nat :=
  [qw_id d; request_queue d; response_queue d].

Definition objects (self : PrototypeMultiProcessingReadingService)
  : list nat :=
  (datapipes self ≫= wrapper_objects) ++ ((λ e, pid e.1.1) <$> processes self).

(** No object is held twice, and every one was handed out by the world. *)
Definition pool_wf (w : World)
    (self : PrototypeMultiProcessingReadingService) : Prop :=
  NoDup (objects self) ∧ Forall (λ i, i < next_id w) (objects self).

(** What [clean_me] does with a worker that answers. *)
Definition terminate (entry : Process * nat * nat) : list event :=
  [Put entry.1.2 TerminateRequest; Get entry.2; Join (pid entry.1.1)].

Definition join_all (ps : list (Process * nat * nat)) (w : World) : World :=
  foldl (λ w e, join e.1.1 w) w ps.

(** A pool of two that was initialized twice, and what its entries look
    like. *)
Definition entry_of (process req_queue res_queue : nat) (worker_id : Z)
  : Process * nat * nat :=
  ({| pid := process; source_datapipe := numbers;
      call_on_process_init := init_datapipe_process 2 worker_id |},
   req_queue, res_queue).

Definition four_workers
  : list event * DataPipe * World * PrototypeMultiProcessingReadingService :=
  initialize two_workers.1.2 two_workers.2 numbers.

End PoolInv.

(** ** [MultiProcessingReadingService] *)

Module Loader.
Import Graph.
Section loader.
(** The types of [timeout], a float, and of [worker_init_fn], a callable:
    both are only passed on. *)
Context {float callable : Type}.

(** [_collate_no_op(batch)]: [batch[0]], an [IndexError] on an empty
    batch. *)
Inductive index_error := IndexError.

Definition _collate_no_op {A : Type} (batch : list A) : index_error + A :=
  match batch with
  | [] => inl IndexError
  | x :: _ => inr x
  end.

Inductive collate := collate_no_op.

(** A [torch.utils.data.DataLoader]: the arguments it was made with, and
    the iterator it keeps for persistent workers, none when it is made. *)
Record DataLoader := {
  dataset : DataPipe;
  dl_num_workers : Z;
  dl_pin_memory : bool;
  dl_timeout : float;
  dl_worker_init_fn : option callable;
  dl_multiprocessing_context : option string;
  dl_prefetch_factor : Z;
  dl_persistent_workers : bool;
  collate_fn : collate;
  batch_size : Z;
  _iterator : option nat;
}.

Record MultiProcessingReadingService := {
  num_workers : Z;
  pin_memory : bool;
  timeout : float;
  worker_init_fn : option callable;
  multiprocessing_context : option string;
  prefetch_factor : Z;
  persistent_workers : bool;
  dl_ : option DataLoader;
}.

Inductive event := ShutdownWorkers (iterator : nat).

Definition __init__ (num_workers : Z) (pin_memory : bool) (timeout : float)
    (worker_init_fn : option callable)
    (multiprocessing_context : option string) (prefetch_factor : Z)
    (persistent_workers : bool) : MultiProcessingReadingService :=
  {| num_workers := num_workers;
     pin_memory := pin_memory;
     timeout := timeout;
     worker_init_fn := worker_init_fn;
     multiprocessing_context := multiprocessing_context;
     prefetch_factor := prefetch_factor;
     persistent_workers := persistent_workers;
     dl_ := None |}.

Definition set_dl (self : MultiProcessingReadingService)
    (dl : option DataLoader) : MultiProcessingReadingService :=
  {| num_workers := num_workers self;
     pin_memory := pin_memory self;
     timeout := timeout self;
     worker_init_fn := worker_init_fn self;
     multiprocessing_context := multiprocessing_context self;
     prefetch_factor := prefetch_factor self;
     persistent_workers := persistent_workers self;
     dl_ := dl |}.

(** [initialize]: the loader made, which [IterableWrapper] wraps, and the
    service that holds it. *)
Definition initialize (self : MultiProcessingReadingService)
    (datapipe : DataPipe) : DataLoader * MultiProcessingReadingService :=
  let dl := {| dataset := datapipe;
               dl_num_workers := num_workers self;
               dl_pin_memory := pin_memory self;
               dl_timeout := timeout self;
               dl_worker_init_fn := worker_init_fn self;
               dl_multiprocessing_context := multiprocessing_context self;
               dl_prefetch_factor := prefetch_factor self;
               dl_persistent_workers := persistent_workers self;
               collate_fn := collate_no_op;
               batch_size := 1;
               _iterator := None |} in
  (dl, set_dl self (Some dl)).

Definition drop_iterator (dl : DataLoader) : DataLoader :=
  {| dataset := dataset dl;
     dl_num_workers := dl_num_workers dl;
     dl_pin_memory := dl_pin_memory dl;
     dl_timeout := dl_timeout dl;
     dl_worker_init_fn := dl_worker_init_fn dl;
     dl_multiprocessing_context := dl_multiprocessing_context dl;
     dl_prefetch_factor := dl_prefetch_factor dl;
     dl_persistent_workers := dl_persistent_workers dl;
     collate_fn := collate_fn dl;
     batch_size := batch_size dl;
     _iterator := None |}.

Definition finalize (self : MultiProcessingReadingService)
  : list event * MultiProcessingReadingService :=
  if persistent_workers self then
    match dl_ self with
    | Some dl =>
        match _iterator dl with
        | Some it => ([ShutdownWorkers it], set_dl self (Some (drop_iterator dl)))
        | None => ([], self)
        end
    | None => ([], self)
    end
  else ([], self).

End loader.
Arguments DataLoader : clear implicits.
Arguments MultiProcessingReadingService : clear implicits.


End Loader.

(** ** More of [DistributedReadingService] *)

Module DistIter.
Import Graph Dist.

Inductive event := Broadcast (src : nat) (group : option ProcessGroup).

Inductive assertion_error := AssertionError.

(** [torch.distributed.broadcast] is PyTorch's; it is taken by its effect
    on the tensors the ranks passed in: afterwards each of them holds the
    tensor of rank [src]. *)
Definition broadcast (src : nat) (tensors : list Z) : list Z :=
  (λ _, tensors !!! src) <$> tensors.

(** [_share_seed]: [draws] are the values the ranks drew with [random_()],
    by rank; the result is what this rank holds after the broadcast. *)
Definition _share_seed (draws : list Z) (rank : nat) : Z :=
  broadcast 0 draws !!! rank.

Section seed.
(** [torch.utils.data.graph_settings.apply_random_seed], with the
    generator given by the seed it was set to. *)
Variable apply_random_seed : DataPipe → Z → DataPipe.

Definition initialize_iteration (rt : Runtime) (draws : list Z)
    (self : DistributedReadingService)
  : list event * (assertion_error + DistributedReadingService) :=
  let seed := _share_seed draws (Z.to_nat (get_rank rt)) in
  match _datapipe self with
  | None => ([Broadcast 0 (_pg self)], inl AssertionError)
  | Some datapipe =>
      ([Broadcast 0 (_pg self)],
       inr {| _world_size := _world_size self;
              _rank := _rank self;
              _datapipe := Some (apply_random_seed datapipe seed);
              _timeout := _timeout self;
              _pg := _pg self |})
  end.


End seed.

(** A seeding to try things with: it drops a mapper named after the seed
    on top. *)
Definition mark_seed (datapipe : DataPipe) (seed : Z) : DataPipe :=
  Mapper (if decide (seed = 7)%Z then "seed 7" else "other seed") datapipe.

Definition rank0of4 : Runtime :=
  {| is_available := true; is_initialized := true;
     get_world_size := 4; get_rank := 0 |}.

End DistIter.

Module MergeFacts.
Import Merge.
Section facts.
Context {Item : Type}.
Implicit Types (σ : gmap nat (list (tick Item))) (dp : nat).
Implicit Types (ex l dps : list nat) (tr seg t : list (event Item)).

Lemma nonblocking_next_frame σ dp r σ' d :
  nonblocking_next σ dp = (r, σ') → d ≠ dp → σ' !!! d = σ !!! d.
Proof.
  unfold nonblocking_next. intros H Hd.
  destruct (σ !!! dp) as [|[|v] w]; simplify_eq; auto;
    by rewrite lookup_total_insert_ne.
Qed.

Lemma yields_app tr1 tr2 : yields (tr1 ++ tr2) = yields tr1 ++ yields tr2.
Proof. apply omap_app. Qed.

Lemma yields_busy_wait dp n : yields (busy_wait (Item:=Item) dp n) = [].
Proof. induction n; simpl; auto. Qed.

(** One visit, in full: the worker is polled through its run of busy
    answers, sleeping after each, up to its first value or its end. *)
Lemma forever_spec fuel σ dp ex tr σ' ex' :
  forever fuel σ dp ex = Some (tr, σ', ex') →
  (∀ d, d ≠ dp → σ' !!! d = σ !!! d) ∧
  ∃ n,
    (∃ v, σ !!! dp = replicate n NotReady ++ Produce v :: σ' !!! dp ∧
          tr = busy_wait dp n ++ [Poll dp (Returned v); Yield v] ∧
          ex' = ex) ∨
    (σ !!! dp = replicate n NotReady ∧ σ' !!! dp = [] ∧
     tr = busy_wait dp n ++ [Poll dp StopIteration] ∧
     ex' = ex ++ [dp]).
Proof.
  revert σ tr σ' ex'. induction fuel as [|fuel IH]; intros σ tr σ' ex' H;
    [discriminate|].
  simpl in H. unfold nonblocking_next in H.
  destruct (σ !!! dp) as [|[|v] w] eqn:Hw.
  - simplify_eq. split; [done|]. exists 0. right. by rewrite Hw.
  - destruct (forever fuel _ dp ex) as [[[tr0 σ0] ex0]|] eqn:Hrec;
      simplify_eq/=.
    apply IH in Hrec as [Hfr [n Hn]].
    rewrite lookup_total_insert_eq in Hn.
    split.
    { intros d Hd. rewrite Hfr by done. by rewrite lookup_total_insert_ne. }
    exists (S n). destruct Hn as [[v (-> & -> & ->)]|(-> & ? & -> & ->)].
    + left. by exists v.
    + right. done.
  - simplify_eq. split.
    { intros d Hd. by rewrite lookup_total_insert_ne. }
    exists 0. left. exists v. by rewrite lookup_total_insert_eq.
Qed.

Lemma forever_total fuel σ dp ex :
  length (σ !!! dp) < fuel → is_Some (forever fuel σ dp ex).
Proof.
  revert σ. induction fuel as [|fuel IH]; intros σ Hlen; [lia|].
  simpl. unfold nonblocking_next.
  destruct (σ !!! dp) as [|[|v] w] eqn:Hw; [by eexists| |by eexists].
  destruct (IH (<[dp:=w]> σ)) as [[[tr σ'] ex'] ->].
  { rewrite lookup_total_insert_eq. simpl in Hlen. lia. }
  by eexists.
Qed.

(** *** What [owed] and [cost] depend on *)

Lemma owed_ext σ ex σ' ex' d :
  σ' !!! d = σ !!! d → (d ∈ ex' ↔ d ∈ ex) → owed σ' ex' d = owed σ ex d.
Proof.
  intros Hs He. unfold owed. rewrite Hs.
  repeat case_bool_decide; tauto.
Qed.

Lemma cost_ext σ ex σ' ex' d :
  σ' !!! d = σ !!! d → (d ∈ ex' ↔ d ∈ ex) → cost σ' ex' d = cost σ ex d.
Proof.
  intros Hs He. unfold cost. rewrite Hs.
  repeat case_bool_decide; tauto.
Qed.

Lemma owed_all_ext l σ ex σ' ex' :
  (∀ d, d ∈ l → σ' !!! d = σ !!! d ∧ (d ∈ ex' ↔ d ∈ ex)) →
  l ≫= owed σ' ex' = l ≫= owed σ ex.
Proof.
  induction l as [|d l IH]; intros H; [done|]. csimpl.
  rewrite IH by (intros; apply H; set_solver).
  f_equal. apply owed_ext; apply H; set_solver.
Qed.

Lemma budget_ext l σ ex σ' ex' :
  (∀ d, d ∈ l → σ' !!! d = σ !!! d ∧ (d ∈ ex' ↔ d ∈ ex)) →
  budget σ' ex' l = budget σ ex l.
Proof.
  unfold budget. induction l as [|d l IH]; intros H; [done|]. csimpl.
  rewrite IH by (intros; apply H; set_solver).
  f_equal. apply cost_ext; apply H; set_solver.
Qed.

Lemma active_ext l ex ex' :
  (∀ d, d ∈ l → (d ∈ ex' ↔ d ∈ ex)) →
  filter (λ d, d ∉ ex') l = filter (λ d, d ∉ ex) l.
Proof.
  induction l as [|d l IH]; intros H; [done|].
  rewrite !filter_cons, IH by (intros; apply H; set_solver).
  apply decide_ext. rewrite (H d) by set_solver. done.
Qed.

Lemma items_busy n (w : list (tick Item)) :
  items (replicate n NotReady ++ w) = items w.
Proof. induction n; simpl; auto. Qed.

Lemma items_only_busy n : items (replicate n (NotReady (Item:=Item))) = [].
Proof. induction n; simpl; auto. Qed.

(** *** One scan cycle: frame and exclusion list *)

Lemma scan_frame fuel l : ∀ σ ex tr σ' ex',
  scan fuel σ l ex = Some (tr, σ', ex') →
  (∀ d, d ∉ l → σ' !!! d = σ !!! d) ∧
  (∀ d, d ∈ ex → d ∈ ex') ∧
  (∀ d, d ∈ ex' → d ∈ ex ∨ d ∈ l) ∧
  (NoDup ex → NoDup ex').
Proof.
  induction l as [|dp l IH]; intros σ ex tr σ' ex' H; simpl in H.
  { simplify_eq. set_solver. }
  case_bool_decide as Hdp.
  - destruct (forever fuel σ dp ex) as [[[t1 σ1] ex1]|] eqn:Hv; [|done].
    simpl in H.
    destruct (scan fuel σ1 l ex1) as [[[t2 σ2] ex2]|] eqn:Hs; [|done].
    simplify_eq/=.
    apply forever_spec in Hv as [Hfr [n Hn]].
    apply IH in Hs as (Hs1 & Hs2 & Hs3 & Hs4).
    assert (ex1 = ex ∨ ex1 = ex ++ [dp]) as Hex by naive_solver.
    repeat split.
    + intros d Hd. apply not_elem_of_cons in Hd as [? ?].
      rewrite Hs1 by done. by apply Hfr.
    + intros d Hd. apply Hs2. destruct Hex as [->| ->]; set_solver.
    + intros d Hd. apply Hs3 in Hd. destruct Hex as [->| ->]; set_solver.
    + intros Hnd. apply Hs4. destruct Hex as [->| ->]; [done|].
      apply NoDup_app. repeat split; [done| |apply NoDup_singleton].
      set_solver.
  - apply IH in H as (Hs1 & Hs2 & Hs3 & Hs4).
    repeat split; auto.
    + intros d Hd. apply Hs1. set_solver.
    + intros d Hd. apply Hs3 in Hd. set_solver.
Qed.

(** *** One scan cycle: what is yielded and what it costs *)

Lemma scan_spec fuel l : NoDup l → ∀ σ ex tr σ' ex',
  scan fuel σ l ex = Some (tr, σ', ex') →
  yields tr ++ (l ≫= owed σ' ex') ≡ₚ l ≫= owed σ ex ∧
  budget σ' ex' l + length (filter (λ d, d ∉ ex) l) ≤ budget σ ex l.
Proof.
  induction 1 as [|dp l Hdpl Hnd IH]; intros σ ex tr σ' ex' H; simpl in H.
  { simplify_eq. csimpl. done. }
  rewrite filter_cons. case_bool_decide as Hdp.
  - destruct (forever fuel σ dp ex) as [[[t1 σ1] ex1]|] eqn:Hv; [|done].
    simpl in H.
    destruct (scan fuel σ1 l ex1) as [[[t2 σ2] ex2]|] eqn:Hs; [|done].
    simplify_eq/=.
    apply forever_spec in Hv as [Hfr [n Hn]].
    pose proof (scan_frame _ _ _ _ _ _ _ Hs) as (Hs1 & Hs2 & Hs3 & _).
    apply IH in Hs as [Hy Hb].
    assert (ex1 = ex ∨ ex1 = ex ++ [dp]) as Hex by naive_solver.
    assert (∀ d, d ∈ l → σ1 !!! d = σ !!! d ∧ (d ∈ ex1 ↔ d ∈ ex)) as Hl.
    { intros d Hd. split; [apply Hfr; set_solver|].
      destruct Hex as [->| ->]; set_solver. }
    rewrite (owed_all_ext l σ ex σ1 ex1) in Hy by done.
    rewrite (budget_ext l σ ex σ1 ex1) in Hb by done.
    rewrite (active_ext l ex ex1) in Hb by (intros; by apply Hl).
    assert (owed σ' ex' dp = owed σ1 ex1 dp) as Ho.
    { apply owed_ext; [by apply Hs1|]. set_solver. }
    assert (cost σ' ex' dp = cost σ1 ex1 dp) as Hc.
    { apply cost_ext; [by apply Hs1|]. set_solver. }
    unfold budget in *. csimpl. rewrite Ho, Hc, yields_app.
    rewrite decide_True by done. simpl.
    set (B' := sum_list (cost σ' ex' <$> l)) in *.
    set (B := sum_list (cost σ ex <$> l)) in *.
    set (R' := l ≫= owed σ' ex') in *.
    set (R := l ≫= owed σ ex) in *.
    destruct Hn as [[v (Hw & -> & ->)]|(Hw & Hw1 & -> & ->)].
    + unfold owed, cost. rewrite !bool_decide_eq_false_2 by done.
      rewrite Hw, items_busy, yields_app, yields_busy_wait,
        length_app, length_replicate. simpl.
      split; [|lia].
      rewrite <- Hy. constructor.
      rewrite !(assoc app). apply Permutation_app_tail, Permutation_app_comm.
    + unfold owed, cost.
      rewrite bool_decide_eq_true_2 by set_solver.
      rewrite bool_decide_eq_false_2 by done.
      rewrite Hw, items_only_busy, yields_app, yields_busy_wait. simpl.
      split; [done|lia].
  - pose proof (scan_frame _ _ _ _ _ _ _ H) as (Hs1 & Hs2 & Hs3 & _).
    apply IH in H as [Hy Hb].
    rewrite decide_False by (intros ?; done).
    unfold budget in *. csimpl.
    set (B' := sum_list (cost σ' ex' <$> l)) in *.
    set (B := sum_list (cost σ ex <$> l)) in *.
    set (R' := l ≫= owed σ' ex') in *.
    set (R := l ≫= owed σ ex) in *.
    unfold owed, cost.
    rewrite !bool_decide_eq_true_2 by auto. simpl. done.
Qed.

(** *** Enough fuel *)

Lemma cost_le_budget σ ex l d : d ∈ l → cost σ ex d ≤ budget σ ex l.
Proof.
  unfold budget. induction l as [|x l IH]; intros Hd; [by inv Hd|].
  csimpl. apply elem_of_cons in Hd as [->|Hd]; [lia|].
  specialize (IH Hd). lia.
Qed.

Lemma scan_total fuel l : NoDup l → ∀ σ ex,
  (∀ d, d ∈ l → d ∉ ex → length (σ !!! d) < fuel) →
  is_Some (scan fuel σ l ex).
Proof.
  induction 1 as [|dp l Hdpl Hnd IH]; intros σ ex Hlen; simpl; [by eexists|].
  case_bool_decide as Hdp.
  - destruct (forever_total fuel σ dp ex) as [[[t1 σ1] ex1] Hv].
    { apply Hlen; [set_solver|done]. }
    rewrite Hv. simpl.
    apply forever_spec in Hv as [Hfr [n Hn]].
    destruct (IH σ1 ex1) as [[[t2 σ2] ex2] ->]; [|by eexists].
    intros d Hd Hex. rewrite Hfr by set_solver.
    apply Hlen; [set_solver|].
    intros ?. apply Hex. destruct Hn as [[v (_ & _ & ->)]|(_ & _ & _ & ->)];
      set_solver.
  - apply IH. intros d Hd. apply Hlen. set_solver.
Qed.

(** *** The [while] test *)

Lemma exhausted_iff dps ex :
  NoDup dps → NoDup ex → ex ⊆ dps →
  ¬ length ex < length dps ↔ ∀ d, d ∈ dps → d ∈ ex.
Proof.
  intros Hdps Hex Hsub. split.
  - intros Hlen d Hd.
    assert (ex ≡ₚ dps) as Hp; [|by rewrite Hp].
    apply submseteq_length_Permutation; [|lia].
    by apply NoDup_submseteq.
  - intros Hall. apply Nat.le_ngt, submseteq_length.
    by apply NoDup_submseteq.
Qed.

Lemma active_nonempty dps ex :
  NoDup dps → NoDup ex → ex ⊆ dps →
  length ex < length dps → 0 < length (filter (λ d, d ∉ ex) dps).
Proof.
  intros Hdps Hex Hsub Hlen.
  destruct (filter (λ d, d ∉ ex) dps) as [|d k] eqn:Hf; [|simpl; lia].
  exfalso. apply (exhausted_iff dps ex) in Hlen; auto.
  intros d Hd. destruct (decide (d ∈ ex)) as [|Hn]; [done|].
  by destruct (filter_nil_not_elem_of _ _ d Hf Hn).
Qed.

Lemma owed_exhausted σ ex l : (∀ d, d ∈ l → d ∈ ex) → l ≫= owed σ ex = [].
Proof.
  induction l as [|d l IH]; intros H; [done|]. csimpl.
  rewrite IH by (intros; apply H; set_solver).
  unfold owed. rewrite bool_decide_eq_true_2; [done|]. apply H. set_solver.
Qed.

Lemma owed_initially σ l : l ≫= owed σ [] = l ≫= (λ dp, items (σ !!! dp)).
Proof. induction l as [|d l IH]; [done|]. csimpl. by rewrite IH. Qed.

(** *** The whole loop *)

Lemma while_spec fuel dps : NoDup dps → ∀ σ ex,
  NoDup ex → ex ⊆ dps → budget σ ex dps < fuel →
  ∃ tr σ' ex',
    while fuel dps σ ex = Some (tr, σ', ex') ∧
    yields tr ≡ₚ dps ≫= owed σ ex ∧
    NoDup ex' ∧ ex' ⊆ dps ∧ (∀ d, d ∈ dps → d ∈ ex').
Proof.
  intros Hdps. induction fuel as [|fuel IH]; intros σ ex Hex Hsub Hb; [lia|].
  cbn [while]. case_bool_decide as Hlen.
  - destruct (scan_total (S fuel) dps Hdps σ ex) as [[[t1 σ1] ex1] Hs].
    { intros d Hd Hn. pose proof (cost_le_budget σ ex dps d Hd) as Hc.
      unfold cost in Hc. rewrite bool_decide_eq_false_2 in Hc by done. lia. }
    rewrite Hs. simpl.
    pose proof (scan_frame _ _ _ _ _ _ _ Hs) as (_ & _ & Hs3 & Hs4).
    pose proof (scan_spec _ _ Hdps _ _ _ _ _ Hs) as [Hy Hbud].
    pose proof (active_nonempty dps ex Hdps Hex Hsub Hlen) as Hact.
    destruct (IH σ1 ex1) as (t2 & σ2 & ex2 & -> & Hy2 & ? & ? & ?).
    { by apply Hs4. }
    { intros d Hd. apply Hs3 in Hd as [?|?]; auto. }
    { lia. }
    simpl. eexists _, _, _. split; [done|]. repeat split; auto.
    rewrite yields_app, Hy2. done.
  - eexists _, _, _. split; [done|]. repeat split; auto.
    + rewrite owed_exhausted; [done|]. by apply exhausted_iff.
    + by apply exhausted_iff.
Qed.

(** *** Which polls a run makes *)

Lemma elem_of_busy_wait dp n (e : event Item) :
  e ∈ busy_wait dp n → e = Poll dp NotAvailable ∨ e = Sleep.
Proof. induction n; simpl; set_solver. Qed.

Lemma visit_polls d seg dp r :
  visit d seg → Poll dp r ∈ seg →
  dp = d ∧ (r = StopIteration → ∃ n, seg = busy_wait d n ++ [Poll d r]).
Proof.
  intros [n v|n] [He|He]%elem_of_app.
  - apply elem_of_busy_wait in He as [?|?]; by simplify_eq.
  - set_solver.
  - apply elem_of_busy_wait in He as [?|?]; by simplify_eq.
  - apply list_elem_of_singleton in He. simplify_eq. eauto.
Qed.

Lemma forever_visit fuel σ dp ex tr σ' ex' :
  forever fuel σ dp ex = Some (tr, σ', ex') → visit dp tr.
Proof.
  intros [_ [n [[v (_ & -> & _)]|(_ & _ & -> & _)]]]%forever_spec;
    constructor.
Qed.

Lemma forever_stop fuel σ dp ex tr σ' ex' :
  forever fuel σ dp ex = Some (tr, σ', ex') →
  Poll dp StopIteration ∈ tr → ex' = ex ++ [dp].
Proof.
  intros [_ [n [[v (_ & -> & _)]|(_ & _ & -> & ->)]]]%forever_spec; [|done].
  intros [He|He]%elem_of_app; [|set_solver].
  apply elem_of_busy_wait in He as [?|?]; by simplify_eq.
Qed.

Lemma scan_polls fuel l : ∀ σ ex tr σ' ex',
  scan fuel σ l ex = Some (tr, σ', ex') →
  (∀ d, polled d tr → d ∈ l ∧ d ∉ ex) ∧
  (∀ d, Poll d StopIteration ∈ tr → d ∈ ex').
Proof.
  induction l as [|dp l IH]; intros σ ex tr σ' ex' H; simpl in H.
  { simplify_eq. unfold polled. set_solver. }
  case_bool_decide as Hdp.
  - destruct (forever fuel σ dp ex) as [[[t1 σ1] ex1]|] eqn:Hv; [|done].
    simpl in H.
    destruct (scan fuel σ1 l ex1) as [[[t2 σ2] ex2]|] eqn:Hs; [|done].
    simplify_eq/=.
    pose proof (forever_visit _ _ _ _ _ _ _ Hv) as Hvis.
    pose proof (forever_stop _ _ _ _ _ _ _ Hv) as Hstop.
    pose proof (scan_frame _ _ _ _ _ _ _ Hs) as (_ & Hs2 & _).
    apply forever_spec in Hv as [_ [n Hn]].
    assert (∀ d, d ∈ ex → d ∈ ex1) as Hmono.
    { destruct Hn as [[v (_ & _ & ->)]|(_ & _ & _ & ->)]; set_solver. }
    apply IH in Hs as [Hp Hx]. split.
    + intros d [r [He|He]%elem_of_app].
      * apply (visit_polls dp) in He as [-> _]; [|done]. set_solver.
      * destruct (Hp d) as [? ?]; [by exists r|]. set_solver.
    + intros d [He|He]%elem_of_app; [|by apply Hx].
      pose proof (visit_polls _ _ _ _ Hvis He) as [-> _].
      apply Hs2. rewrite (Hstop He). set_solver.
  - apply IH in H as [Hp Hx]. split; [|done].
    intros d Hd. apply Hp in Hd. set_solver.
Qed.

Lemma stop_respected_app tr1 tr2 :
  stop_respected tr1 → stop_respected tr2 →
  (∀ d, Poll d StopIteration ∈ tr1 → ¬ polled d tr2) →
  stop_respected (tr1 ++ tr2).
Proof.
  induction tr1 as [|e tr1 IH]; intros H1 H2 H; [done|].
  assert (stop_respected (tr1 ++ tr2)) as Hrec.
  { apply IH; [by destruct e as [? []| |]; simpl in H1; tauto|done|].
    intros d Hd. apply H. set_solver. }
  destruct e as [dp [v| |]|v|]; simpl in *; try done.
  split; [|done]. destruct H1 as [Hn _].
  intros [r [?|?]%elem_of_app]; [apply Hn; by exists r|].
  apply (H dp); [set_solver|by exists r].
Qed.

Lemma stop_respected_split tr : stop_respected tr →
  ∀ t1 dp t2, tr = t1 ++ Poll dp StopIteration :: t2 → ¬ polled dp t2.
Proof.
  intros H t1. revert tr H. induction t1 as [|e t1 IH];
    intros tr H dp t2 ->; simpl in H; [tauto|].
  apply (IH (t1 ++ Poll dp StopIteration :: t2)); [|done].
  destruct e as [? []| |]; tauto.
Qed.

Lemma stop_respected_busy_wait dp n :
  stop_respected (busy_wait (Item:=Item) dp n).
Proof. induction n; simpl; auto. Qed.

Lemma visit_stop_respected dp seg : visit (Item:=Item) dp seg →
  stop_respected seg.
Proof.
  intros [n v|n]; (apply stop_respected_app;
    [apply stop_respected_busy_wait| |]).
  - simpl. done.
  - intros d Hd. apply elem_of_busy_wait in Hd as [?|?]; done.
  - simpl. split; [|done]. intros [r Hr]. by inv Hr.
  - intros d Hd. apply elem_of_busy_wait in Hd as [?|?]; done.
Qed.

Lemma scan_stop_respected fuel l : NoDup l → ∀ σ ex tr σ' ex',
  scan fuel σ l ex = Some (tr, σ', ex') → stop_respected tr.
Proof.
  induction 1 as [|dp l Hdpl Hnd IH]; intros σ ex tr σ' ex' H; simpl in H.
  { by simplify_eq. }
  case_bool_decide as Hdp; [|by eapply IH].
  destruct (forever fuel σ dp ex) as [[[t1 σ1] ex1]|] eqn:Hv; [|done].
  simpl in H.
  destruct (scan fuel σ1 l ex1) as [[[t2 σ2] ex2]|] eqn:Hs; [|done].
  simplify_eq/=.
  pose proof (forever_visit _ _ _ _ _ _ _ Hv) as Hvis.
  apply stop_respected_app; [by eapply visit_stop_respected|by eapply IH|].
  intros d Hd Hp. pose proof (visit_polls _ _ _ _ Hvis Hd) as [-> _].
  apply scan_polls in Hs as [Hs _]. apply Hs in Hp. tauto.
Qed.

Lemma while_polls fuel dps : NoDup dps → ∀ σ ex tr σ' ex',
  while fuel dps σ ex = Some (tr, σ', ex') →
  stop_respected tr ∧
  (∀ d, polled d tr → d ∉ ex) ∧
  (∀ d, Poll d StopIteration ∈ tr → d ∈ ex') ∧
  (∀ d, d ∈ ex → d ∈ ex').
Proof.
  intros Hdps. induction fuel as [|fuel IH]; intros σ ex tr σ' ex' H;
    [done|].
  cbn [while] in H. case_bool_decide as Hlen.
  - destruct (scan (S fuel) σ dps ex) as [[[t1 σ1] ex1]|] eqn:Hs; [|done].
    simpl in H.
    destruct (while fuel dps σ1 ex1) as [[[t2 σ2] ex2]|] eqn:Hw; [|done].
    simplify_eq/=.
    pose proof (scan_frame _ _ _ _ _ _ _ Hs) as (_ & Hs2 & _).
    pose proof (scan_polls _ _ _ _ _ _ _ Hs) as [Hp1 Hx1].
    pose proof (scan_stop_respected _ _ Hdps _ _ _ _ _ Hs) as Hr1.
    apply IH in Hw as (Hr2 & Hp2 & Hx2 & Hm2).
    repeat split.
    + apply stop_respected_app; auto.
      intros d Hd Hp. apply Hx1 in Hd. by apply Hp2 in Hp.
    + intros d [r [He|He]%elem_of_app].
      * destruct (Hp1 d); [by exists r|done].
      * intros ?. apply (Hp2 d); [by exists r|auto].
    + intros d [He|He]%elem_of_app; auto.
    + auto.
  - simplify_eq. unfold polled. set_solver.
Qed.

Lemma loop_head_inv dps σ0 σ ex :
  loop_head dps σ0 σ ex → NoDup ex ∧ ex ⊆ dps.
Proof.
  induction 1 as [|fuel σ ex tr σ' ex' _ [IH1 IH2] _ Hs].
  { split; [constructor|set_solver]. }
  apply scan_frame in Hs as (_ & _ & Hs3 & Hs4).
  split; [auto|]. intros d Hd. apply Hs3 in Hd as [?|?]; auto.
Qed.

(** *** The shape of one scan cycle *)

Lemma values_of_app dp tr1 tr2 :
  values_of dp (tr1 ++ tr2) = values_of dp tr1 + values_of dp tr2.
Proof. unfold values_of. by rewrite filter_app, length_app. Qed.

Lemma values_of_busy_wait dp d n :
  values_of (Item:=Item) dp (busy_wait d n) = 0.
Proof.
  induction n as [|n IH]; [done|]. cbn [busy_wait].
  unfold values_of in *. by rewrite !filter_cons.
Qed.

Lemma values_of_visit dp d seg :
  visit d seg → values_of dp seg ≤ 1 ∧ (d ≠ dp → values_of dp seg = 0).
Proof.
  intros [n v|n]; rewrite values_of_app, values_of_busy_wait;
    unfold values_of; rewrite !filter_cons, filter_nil; simpl.
  - case_decide as Hd; simpl; [|by split; [lia|]].
    split; [lia|]. intros Hne. by apply bool_decide_eq_true in Hd.
  - split; [lia|done].
Qed.

Lemma values_of_visits dp ds (segs : list (list (event Item))) :
  Forall2 visit ds segs → NoDup ds →
  values_of dp (concat segs) ≤ 1 ∧
  (dp ∉ ds → values_of dp (concat segs) = 0).
Proof.
  induction 1 as [|d seg ds segs Hv _ IH]; intros Hnd.
  { split; [change (0 ≤ 1); lia|done]. }
  apply NoDup_cons in Hnd as [Hd Hnd]. destruct (IH Hnd) as [IH1 IH2].
  simpl. rewrite values_of_app.
  destruct (values_of_visit dp d seg Hv) as [Hv1 Hv2].
  destruct (decide (d = dp)) as [->|Hne].
  - rewrite (IH2 Hd). split; [lia|]. set_solver.
  - rewrite (Hv2 Hne). split; [lia|]. intros Hn. apply IH2. set_solver.
Qed.

Lemma scan_visits fuel l : NoDup l → ∀ σ ex tr σ' ex',
  scan fuel σ l ex = Some (tr, σ', ex') →
  ∃ segs, tr = concat segs ∧ Forall2 visit (filter (λ d, d ∉ ex) l) segs.
Proof.
  induction 1 as [|dp l Hdpl Hnd IH]; intros σ ex tr σ' ex' H; simpl in H.
  { simplify_eq. by exists []. }
  rewrite filter_cons. case_bool_decide as Hdp.
  - destruct (forever fuel σ dp ex) as [[[t1 σ1] ex1]|] eqn:Hv; [|done].
    simpl in H.
    destruct (scan fuel σ1 l ex1) as [[[t2 σ2] ex2]|] eqn:Hs; [|done].
    simplify_eq/=.
    pose proof (forever_visit _ _ _ _ _ _ _ Hv) as Hvis.
    apply forever_spec in Hv as [_ [n Hn]].
    apply IH in Hs as (segs & -> & Hsegs).
    rewrite (active_ext l ex ex1) in Hsegs.
    2:{ intros d Hd.
        destruct Hn as [[v (_ & _ & ->)]|(_ & _ & _ & ->)]; set_solver. }
    rewrite decide_True by done.
    exists (t1 :: segs). split; [done|]. by constructor.
  - rewrite decide_False by (intros ?; done). by eapply IH.
Qed.

(** Distinctness is needed: listed twice, a datapipe is excluded once, the
    exclusion list stays shorter than the pool and the loop never ends. *)
Lemma while_same_datapipe_twice fuel σ :
  while fuel [0; 0] σ [0] = None.
Proof.
  induction fuel as [|fuel IH]; [done|]. cbn [while].
  rewrite bool_decide_eq_true_2 by (simpl; lia). cbn [scan].
  rewrite !bool_decide_eq_false_2 by set_solver.
  cbn [mbind option_bind]. by rewrite IH.
Qed.

(** C1.  For every pool of distinct workers [datapipes] and every heap [σ]
    that gives each of them a finite run of answers, iterating
    [_IterateQueueDataPipes] returns (enough fuel exists), and what it yields
    is, up to order, the items of all workers together, each as often as its
    worker holds it. *)
Theorem iter_yields_union_and_terminates (datapipes : list nat) σ :
  NoDup datapipes →
  ∃ fuel tr σ' ex,
    iter fuel datapipes σ = Some (tr, σ', ex) ∧
    yields tr ≡ₚ datapipes ≫= (λ dp, items (σ !!! dp)) ∧
    (∀ dp, dp ∈ datapipes → dp ∈ ex).
Proof.
  intros Hnd.
  destruct (while_spec (S (budget σ [] datapipes)) datapipes Hnd σ [])
    as (tr & σ' & ex & Hrun & Hy & _ & _ & Hall);
    [constructor|set_solver|lia|].
  exists (S (budget σ [] datapipes)), tr, σ', ex. split; [done|].
  split; [|done]. by rewrite Hy, owed_initially.
Qed.

(** C2, as the code has it.  In one scan cycle over distinct datapipes the
    trace is the visits of the datapipes not yet excluded, in pool order.  A
    visit polls its datapipe again and again, sleeping after every
    [NotAvailable] answer whatever the other workers did, until the datapipe
    returns a value, which is yielded, or raises [StopIteration]; only then
    does the scan go on to the next datapipe.  So no datapipe hands over more
    than one value in a scan cycle. *)
Theorem scan_polls_until_answer fuel (datapipes : list nat) σ ex tr σ' ex' :
  NoDup datapipes →
  scan fuel σ datapipes ex = Some (tr, σ', ex') →
  (∃ segs, tr = concat segs ∧
           Forall2 visit (filter (λ d, d ∉ ex) datapipes) segs) ∧
  (∀ dp, values_of dp tr ≤ 1).
Proof.
  intros Hnd Hs.
  destruct (scan_visits _ _ Hnd _ _ _ _ _ Hs) as (segs & -> & Hsegs).
  split; [by exists segs|].
  intros dp. eapply values_of_visits; [done|]. by apply NoDup_filter.
Qed.

(** C3.  On a pool of distinct workers the run returns, and in its trace a
    datapipe that raised [StopIteration] is in the exclusion list and is not
    polled after that.  At every evaluation of the [while] test the stream is
    over exactly when every datapipe is excluded, and a scan started there
    polls no excluded datapipe and keeps each of them excluded. *)
Theorem exhaustion_monotone (datapipes : list nat) σ :
  NoDup datapipes →
  (∃ fuel tr σ' ex,
     iter fuel datapipes σ = Some (tr, σ', ex) ∧
     (∀ dp, dp ∈ datapipes → dp ∈ ex) ∧
     (∀ t1 dp t2, tr = t1 ++ Poll dp StopIteration :: t2 →
                  dp ∈ ex ∧ ¬ polled dp t2)) ∧
  (∀ σ1 ex1,
     loop_head datapipes σ σ1 ex1 →
     (¬ length ex1 < length datapipes ↔ ∀ dp, dp ∈ datapipes → dp ∈ ex1) ∧
     (∀ fuel tr σ2 ex2,
        scan fuel σ1 datapipes ex1 = Some (tr, σ2, ex2) →
        ∀ dp, dp ∈ ex1 → ¬ polled dp tr ∧ dp ∈ ex2)).
Proof.
  intros Hnd. split.
  - destruct (while_spec (S (budget σ [] datapipes)) datapipes Hnd σ [])
      as (tr & σ' & ex & Hrun & _ & _ & _ & Hall);
      [constructor|set_solver|lia|].
    exists (S (budget σ [] datapipes)), tr, σ', ex.
    split; [done|]. split; [done|].
    destruct (while_polls _ _ Hnd _ _ _ _ _ Hrun) as (Hr & _ & Hx & _).
    intros t1 dp t2 ->. split.
    + apply Hx. set_solver.
    + by eapply stop_respected_split.
  - intros σ1 ex1 Hhead.
    destruct (loop_head_inv _ _ _ _ Hhead) as [Hex Hsub].
    split; [by apply exhausted_iff|].
    intros fuel tr σ2 ex2 Hs dp Hdp.
    pose proof (scan_frame _ _ _ _ _ _ _ Hs) as (_ & Hs2 & _).
    pose proof (scan_polls _ _ _ _ _ _ _ Hs) as [Hp _].
    split; [|auto]. intros Hpolled. apply Hp in Hpolled. tauto.
Qed.


End facts.

(** *** The theorems at work *)

Example abc_pool_merged :
  (λ r, yields r.1.1) <$> iter 7 [0; 1; 2] abc_pool
  = Some ["a"; "c"; "d"; "b"; "e"; "f"].
Proof. vm_compute. reflexivity. Qed.

Lemma iter_yields_union_and_terminates_abc :
  NoDup [0; 1; 2] ∧
  ∃ fuel tr σ' ex,
    iter fuel [0; 1; 2] abc_pool = Some (tr, σ', ex) ∧
    yields tr ≡ₚ [0; 1; 2] ≫= (λ dp, items (abc_pool !!! dp)) ∧
    (∀ dp, dp ∈ [0; 1; 2] → dp ∈ ex).
Proof.
  split; [by apply (bool_decide_unpack _)|].
  apply (iter_yields_union_and_terminates [0; 1; 2] abc_pool).
  by apply (bool_decide_unpack _).
Defined.

Lemma scan_polls_until_answer_busy_pool :
  ∃ tr σ' ex',
    (NoDup [0; 1] ∧ scan 2 busy_pool [0; 1] [] = Some (tr, σ', ex')) ∧
    (∃ segs, tr = concat segs ∧
             Forall2 visit (filter (λ d, d ∉ []) [0; 1]) segs) ∧
    (∀ dp, values_of dp tr ≤ 1).
Proof.
  eexists _, _, _. split.
  - split; [by apply (bool_decide_unpack _)|]. vm_compute. reflexivity.
  - eapply (scan_polls_until_answer 2 [0; 1] busy_pool []);
      [by apply (bool_decide_unpack _)|vm_compute; reflexivity].
Defined.

(** C2, as the design document has it, fails on [busy_pool]: in the first
    scan cycle worker 0 answers [NotAvailable], the iterator sleeps and polls
    worker 0 again before it turns to worker 1, which was never busy. *)
Lemma busy_worker_polled_again_at_once :
  ∃ σ' ex',
    scan 2 busy_pool [0; 1] [] =
      Some ([Poll 0 NotAvailable; Sleep; Poll 0 (Returned "a"); Yield "a";
             Poll 1 (Returned "b"); Yield "b"], σ', ex') ∧
    ¬ busy_left_to_next_scan
        [Poll 0 NotAvailable; Sleep; Poll 0 (Returned "a"); Yield "a";
         Poll 1 (Returned "b"); Yield "b"] ∧
    ¬ backoff_only_if_all_busy
        [Poll 0 NotAvailable; Sleep; Poll 0 (Returned "a"); Yield "a";
         Poll 1 (Returned "b"); Yield "b"].
Proof.
  eexists _, _. split; [vm_compute; reflexivity|]. split.
  - intros H. apply (H [] 0 _ eq_refl). exists (Returned "a"). set_solver.
  - intros H. specialize (H eq_refl 1 (Returned "b")).
    assert (Returned "b" = NotAvailable) as Hb; [apply H; set_solver|].
    discriminate Hb.
Qed.

Lemma exhaustion_monotone_abc :
  NoDup [0; 1; 2] ∧
  ((∃ fuel tr σ' ex,
     iter fuel [0; 1; 2] abc_pool = Some (tr, σ', ex) ∧
     (∀ dp, dp ∈ [0; 1; 2] → dp ∈ ex) ∧
     (∀ t1 dp t2, tr = t1 ++ Poll dp StopIteration :: t2 →
                  dp ∈ ex ∧ ¬ polled dp t2)) ∧
  (∀ σ1 ex1,
     loop_head [0; 1; 2] abc_pool σ1 ex1 →
     (¬ length ex1 < length [0; 1; 2] ↔ ∀ dp, dp ∈ [0; 1; 2] → dp ∈ ex1) ∧
     (∀ fuel tr σ2 ex2,
        scan fuel σ1 [0; 1; 2] ex1 = Some (tr, σ2, ex2) →
        ∀ dp, dp ∈ ex1 → ¬ polled dp tr ∧ dp ∈ ex2))).
Proof.
  split; [by apply (bool_decide_unpack _)|].
  apply (exhaustion_monotone [0; 1; 2] abc_pool).
  by apply (bool_decide_unpack _).
Defined.

End MergeFacts.

Module PoolFacts.
Import Graph Pool.
Implicit Types (w : World) (self : PrototypeMultiProcessingReadingService).
Implicit Types (tr : list event) (p : Process) (dp : DataPipe).
Implicit Types (ps newp : list (Process * nat * nat)) (K i : Z).

(** *** Spawning *)

(** What the loop of [initialize] adds for the worker ids [ids]: one pool
    entry and one queue wrapper per id, in order, over identities that were
    not handed out before. *)
Lemma spawn_workers_spec dp ids : ∀ w self tr w' self',
  spawn_workers dp ids w self = (tr, w', self') →
  num_workers self' = num_workers self ∧
  multiprocessing_context self' = multiprocessing_context self ∧
  next_id w ≤ next_id w' ∧
  (∀ q, q < next_id w → state_of w' !! q = state_of w !! q) ∧
  ∃ newp newd,
    processes self' = processes self ++ newp ∧
    datapipes self' = datapipes self ++ newd ∧
    length newp = length ids ∧ length newd = length ids ∧
    started tr = (λ e, pid e.1.1) <$> newp ∧
    Forall (λ c, next_id w ≤ c < next_id w') (newp ≫= channels) ∧
    NoDup (newp ≫= channels) ∧
    Forall (λ e, next_id w ≤ pid e.1.1 < next_id w') newp ∧
    NoDup ((λ e, pid e.1.1) <$> newp) ∧
    (∀ j worker_id, ids !! j = Some worker_id →
       ∃ p rq rs qid,
         newp !! j = Some (p, rq, rs) ∧
         newd !! j = Some {| qw_id := qid; request_queue := rq;
                             response_queue := rs |} ∧
         source_datapipe p = dp ∧
         call_on_process_init p
           = init_datapipe_process (num_workers self) worker_id ∧
         next_id w ≤ pid p < next_id w' ∧
         state_of w' !! pid p = Some Running).
Proof.
  induction ids as [|worker_id ids IH]; intros w self tr w' self' H.
  { simpl in H. simplify_eq. repeat split; auto.
    exists [], []. rewrite !app_nil_r. repeat split; auto.
    - apply NoDup_nil_2.
    - apply NoDup_nil_2.
    - intros j ? Hj. by rewrite lookup_nil in Hj. }
  cbn [spawn_workers] in H.
  destruct (spawn_worker dp worker_id w self) as [[tr1 w1] self1] eqn:H1.
  destruct (spawn_workers dp ids w1 self1) as [[tr2 w2] self2] eqn:H2.
  simplify_eq.
  apply IH in H2 as (Hn & Hc & Hle & Hfr & newp & newd & Hp & Hd & Hlp & Hld
                     & Hst & Hch & Hnd & Hpb & Hpn & Hlk).
  unfold spawn_worker, SpawnProcessForDataPipeline, start in H1.
  simplify_eq. simpl in *.
  repeat split; auto; try lia.
  { intros q Hq. rewrite Hfr by lia. simpl.
    rewrite lookup_insert_ne by lia. done. }
  eexists (_ :: newp), (_ :: newd).
  rewrite Hp, Hd, <- !(assoc app). simpl.
  repeat split; auto; try lia.
  - by rewrite Hst.
  - unfold channels at 1. simpl. repeat constructor; try lia.
    eapply Forall_impl; [exact Hch|]. simpl. intros; lia.
  - unfold channels at 1. simpl.
    rewrite Forall_forall in Hch.
    apply NoDup_cons. split.
    { intros [?|Hin]%elem_of_cons; [lia|]. apply Hch in Hin. simpl in Hin. lia. }
    apply NoDup_cons. split; [|done].
    intros Hin. apply Hch in Hin. simpl in Hin. lia.
  - constructor; [simpl; lia|].
    eapply Forall_impl; [exact Hpb|]. simpl. intros; lia.
  - rewrite Forall_forall in Hpb.
    apply NoDup_cons. split; [|done]. simpl.
    intros (e & Heq & Hin)%list_elem_of_fmap. apply Hpb in Hin. lia.
  - intros [|j] wid Hj; simpl in Hj.
    + simplify_eq. eexists _, _, _, _.
      repeat split; simpl; auto; try lia.
      rewrite Hfr by lia. simpl. apply lookup_insert_eq.
    + destruct (Hlk j wid Hj) as (p & rq & rs & qid & ? & ? & ? & ? & ? & ?).
      exists p, rq, rs, qid. repeat split; auto; lia.
Qed.

(** Whatever [num_workers] is, [initialize] appends to both lists, as many
    entries as [range(num_workers)] has members. *)
Lemma initialize_appends w self dp tr r w' self' :
  initialize w self dp = (tr, r, w', self') →
  ∃ newp newd,
    processes self' = processes self ++ newp ∧
    datapipes self' = datapipes self ++ newd ∧
    length newp = Z.to_nat (num_workers self) ∧
    length newd = Z.to_nat (num_workers self).
Proof.
  unfold initialize. intros H. case_decide as HK.
  { simplify_eq. exists [], []. rewrite !app_nil_r, HK. done. }
  destruct (spawn_workers _ _ _ _) as [[tr1 w1] self1] eqn:Hs. simplify_eq.
  apply spawn_workers_spec in Hs
    as (_ & _ & _ & _ & newp & newd & ? & ? & ? & ? & _).
  exists newp, newd. rewrite length_seqZ in *. done.
Qed.

(** *** Cleaning up *)

Lemma clean_me_cases w entry :
  (state_of w !! pid entry.1.1 = Some Running ∧
   clean_me w entry =
     ([Put entry.1.2 TerminateRequest; Get entry.2; Join (pid entry.1.1)],
      Returns (join entry.1.1 w))) ∨
  (state_of w !! pid entry.1.1 ≠ Some Running ∧
   clean_me w entry =
     ([Put entry.1.2 TerminateRequest; Get entry.2], Hangs)).
Proof.
  destruct entry as [[p rq] rs]. unfold clean_me, response_arrival. simpl.
  destruct (state_of w !! pid p) as [[]|]; simpl; auto.
Qed.

Lemma clean_all_never_raises ps : ∀ w tr e, clean_all w ps ≠ (tr, Raises e).
Proof.
  induction ps as [|entry ps IH]; intros w tr e; simpl; [done|].
  destruct (clean_me_cases w entry) as [[_ ->]|[_ ->]]; [|done].
  destruct (clean_all _ ps) as [tr2 o] eqn:Hc. intros ?. simplify_eq.
  by eapply IH.
Qed.

Lemma clean_all_hangs ps : ∀ w,
  (∃ entry, entry ∈ ps ∧ state_of w !! pid entry.1.1 ≠ Some Running) →
  (clean_all w ps).2 = Hangs.
Proof.
  induction ps as [|entry ps IH]; intros w (e & He & Hst); [by inv He|].
  simpl. destruct (clean_me_cases w entry) as [[Hrun ->]|[_ ->]]; [|done].
  destruct (clean_all _ ps) as [tr2 o] eqn:Hc. simpl.
  change o with (tr2, o).2. rewrite <- Hc. apply IH.
  apply elem_of_cons in He as [->|He]; [done|].
  exists e. split; [done|]. unfold join. simpl.
  destruct (decide (pid entry.1.1 = pid e.1.1)) as [Heq|Hne].
  - rewrite Heq, lookup_insert_eq. done.
  - by rewrite lookup_insert_ne.
Qed.

Lemma clean_all_returns ps : ∀ w,
  NoDup ((λ e, pid e.1.1) <$> ps) →
  (∀ entry, entry ∈ ps → state_of w !! pid entry.1.1 = Some Running) →
  ∃ w',
    clean_all w ps =
      (ps ≫= (λ e, [Put e.1.2 TerminateRequest; Get e.2; Join (pid e.1.1)]),
       Returns w') ∧
    next_id w' = next_id w.
Proof.
  induction ps as [|entry ps IH]; intros w Hnd Hrun.
  { by exists w. }
  csimpl in Hnd. apply NoDup_cons in Hnd as [Hnotin Hnd]. simpl.
  destruct (clean_me_cases w entry) as [[_ ->]|[Hn _]].
  2:{ destruct Hn. apply Hrun. set_solver. }
  destruct (IH (join entry.1.1 w) Hnd) as (w' & -> & Hid).
  { intros e He. unfold join. simpl. rewrite lookup_insert_ne.
    - apply Hrun. set_solver.
    - intros Heq. apply Hnotin. rewrite Heq.
      by apply (list_elem_of_fmap_2 (λ e, pid e.1.1)). }
  by exists w'.
Qed.

(** C8.  With [num_workers = K > 0], [initialize] starts exactly [K]
    processes, the ones of the [K] entries it appends to the pool.  Worker
    [i] of [0 .. K-1] serves the pipeline sharded as instance [i] of [K], the
    sharding being what its process runs first.  Its queue wrapper talks over
    its own two queues, which did not exist before; no queue and no process
    occurs twice among the new entries. *)
Theorem initialize_spawns_one_worker_per_shard w self dp K tr r w' self' :
  (0 < K)%Z → num_workers self = K →
  initialize w self dp = (tr, r, w', self') →
  r = IterableWrapper (IterateQueueDataPipes self_datapipes) false ∧
  ∃ newp newd,
    processes self' = processes self ++ newp ∧
    datapipes self' = datapipes self ++ newd ∧
    length newp = Z.to_nat K ∧ length newd = Z.to_nat K ∧
    started tr = (λ e, pid e.1.1) <$> newp ∧
    NoDup ((λ e, pid e.1.1) <$> newp) ∧
    (∀ i, (0 ≤ i < K)%Z →
       ∃ p rq rs qid,
         newp !! Z.to_nat i = Some (p, rq, rs) ∧
         newd !! Z.to_nat i = Some {| qw_id := qid; request_queue := rq;
                                       response_queue := rs |} ∧
         source_datapipe p = dp ∧
         call_on_process_init p = init_datapipe_process K i ∧
         served_datapipe p = apply_sharding dp K i ∧
         state_of w' !! pid p = Some Running) ∧
    Forall (λ c, next_id w ≤ c < next_id w') (newp ≫= channels) ∧
    NoDup (newp ≫= channels).
Proof.
  intros HK Hself. unfold initialize. rewrite decide_False by lia.
  destruct (spawn_workers _ _ _ _) as [[tr1 w1] self1] eqn:Hs. intros H.
  simplify_eq. split; [done|].
  apply spawn_workers_spec in Hs
    as (_ & _ & _ & _ & newp & newd & Hp & Hd & Hlp & Hld & Hst & Hch & Hnd
        & _ & Hpn & Hlk).
  exists newp, newd. rewrite length_seqZ in *.
  repeat split; auto.
  intros i Hi.
  destruct (Hlk (Z.to_nat i) i) as (p & rq & rs & qid & ? & ? & Hsrc & Hhook & _ & ?).
  { apply lookup_seqZ. lia. }
  exists p, rq, rs, qid. repeat split; auto.
  unfold served_datapipe. rewrite Hhook, Hsrc. done.
Qed.

(** C9.  With [num_workers = 0], [initialize] hands back the datapipe it
    was given: nothing is started, nothing is appended, and the world and the
    service are as before. *)
Theorem initialize_without_workers w self dp :
  num_workers self = 0%Z → initialize w self dp = ([], dp, w, self).
Proof. intros H. unfold initialize. by rewrite decide_True. Qed.

(** C4, as the code has it.  The wait of [finalize] for an acknowledgement
    is a [get] without timeout.  So [finalize] never raises; it never comes
    back when some worker of the pool is not running, and it comes back when
    the workers are distinct and all running. *)
Theorem finalize_waits_without_timeout w self :
  (∀ tr e, finalize w self ≠ (tr, Raises e)) ∧
  ((∃ entry, entry ∈ processes self ∧
             state_of w !! pid entry.1.1 ≠ Some Running) →
   (finalize w self).2 = Hangs) ∧
  (NoDup ((λ e, pid e.1.1) <$> processes self) →
   (∀ entry, entry ∈ processes self →
             state_of w !! pid entry.1.1 = Some Running) →
   ∃ tr w' self', finalize w self = (tr, Returns (w', self'))).
Proof.
  unfold finalize. repeat split.
  - intros tr e. destruct (clean_all w (processes self)) as [tr1 [w1|e1|]] eqn:Hc;
      try done.
    by destruct (clean_all_never_raises _ _ _ _ Hc).
  - intros Hex. apply clean_all_hangs in Hex.
    destruct (clean_all w (processes self)) as [tr1 [w1|e1|]]; by simplify_eq/=.
  - intros Hnd Hrun.
    destruct (clean_all_returns _ w Hnd Hrun) as (w' & -> & _).
    by eexists _, _, _.
Qed.

(** C5.  After a [finalize] that came back, a second [finalize], in
    whatever world, sends nothing, waits for nothing and changes nothing. *)
Theorem finalize_twice_is_noop w self tr w1 self1 :
  finalize w self = (tr, Returns (w1, self1)) →
  ∀ w2, finalize w2 self1 = ([], Returns (w2, self1)).
Proof.
  unfold finalize. intros H w2.
  destruct (clean_all w (processes self)) as [tr1 [w'|e|]]; simplify_eq.
  done.
Qed.

(** C10.  A [finalize] that came back emptied [processes] and left the
    other fields as they were; the queue wrappers of the workers it
    terminated are still in [datapipes].  An [initialize] after it appends its
    new entries to both lists, so the old wrappers come first in [datapipes]
    and [initialize_iteration] resets them along with the new ones. *)
Theorem finalize_keeps_datapipes w self tr w1 self1 :
  finalize w self = (tr, Returns (w1, self1)) →
  processes self1 = [] ∧
  datapipes self1 = datapipes self ∧
  num_workers self1 = num_workers self ∧
  multiprocessing_context self1 = multiprocessing_context self ∧
  ∀ w2 dp tr2 r w3 self2,
    initialize w2 self1 dp = (tr2, r, w3, self2) →
    ∃ newp newd,
      processes self2 = processes self1 ++ newp ∧
      datapipes self2 = datapipes self ++ newd ∧
      length newp = Z.to_nat (num_workers self) ∧
      length newd = Z.to_nat (num_workers self) ∧
      deref self2 self_datapipes = datapipes self ++ newd ∧
      initialize_iteration self2 =
        initialize_iteration self ++
        ((λ d, ResetIterator (qw_id d)) <$> newd).
Proof.
  unfold finalize. intros H.
  destruct (clean_all w (processes self)) as [tr1 [w'|e|]]; simplify_eq.
  simpl. repeat split; auto.
  intros w2 dp tr2 r w3 self2 Hi.
  apply initialize_appends in Hi as (newp & newd & Hp & Hd & ? & ?).
  simpl in *. exists newp, newd. repeat split; auto.
  unfold initialize_iteration. by rewrite Hd, fmap_app.
Qed.

(** *** The theorems at work *)

Example two_workers_spawned :
  two_workers =
    ([Spawn 2 0 1; Start 2; Spawn 6 4 5; Start 6],
     IterableWrapper (IterateQueueDataPipes self_datapipes) false,
     {| next_id := 8; state_of := <[6 := Running]> (<[2 := Running]> ∅) |},
     {| num_workers := 2;
        multiprocessing_context := None;
        processes :=
          [({| pid := 2; source_datapipe := numbers;
               call_on_process_init := init_datapipe_process 2 0 |}, 0, 1);
           ({| pid := 6; source_datapipe := numbers;
               call_on_process_init := init_datapipe_process 2 1 |}, 4, 5)];
        datapipes :=
          [{| qw_id := 3; request_queue := 0; response_queue := 1 |};
           {| qw_id := 7; request_queue := 4; response_queue := 5 |}] |}).
Proof. reflexivity. Qed.

Lemma initialize_spawns_two_workers :
  ∃ tr r w' self',
    ((0 < 2)%Z ∧ num_workers (__init__ 2 None) = 2%Z ∧
     initialize empty_world (__init__ 2 None) numbers = (tr, r, w', self')) ∧
    r = IterableWrapper (IterateQueueDataPipes self_datapipes) false ∧
    ∃ newp newd,
      processes self' = processes (__init__ 2 None) ++ newp ∧
      datapipes self' = datapipes (__init__ 2 None) ++ newd ∧
      length newp = Z.to_nat 2 ∧ length newd = Z.to_nat 2 ∧
      started tr = (λ e, pid e.1.1) <$> newp ∧
      NoDup ((λ e, pid e.1.1) <$> newp) ∧
      (∀ i, (0 ≤ i < 2)%Z →
         ∃ p rq rs qid,
           newp !! Z.to_nat i = Some (p, rq, rs) ∧
           newd !! Z.to_nat i = Some {| qw_id := qid; request_queue := rq;
                                         response_queue := rs |} ∧
           source_datapipe p = numbers ∧
           call_on_process_init p = init_datapipe_process 2 i ∧
           served_datapipe p = apply_sharding numbers 2 i ∧
           state_of w' !! pid p = Some Running) ∧
      Forall (λ c, next_id empty_world ≤ c < next_id w') (newp ≫= channels) ∧
      NoDup (newp ≫= channels).
Proof.
  eexists _, _, _, _. split.
  - split; [lia|]. split; reflexivity.
  - eapply (initialize_spawns_one_worker_per_shard
              empty_world (__init__ 2 None) numbers 2);
      [lia|reflexivity|reflexivity].
Defined.

Lemma initialize_without_workers_passes_through :
  num_workers (__init__ 0 None) = 0%Z ∧
  initialize empty_world (__init__ 0 None) numbers
    = ([], numbers, empty_world, __init__ 0 None).
Proof.
  split; [reflexivity|].
  apply (initialize_without_workers empty_world (__init__ 0 None) numbers).
  reflexivity.
Defined.

(** C4, as the design document has it, fails: when the first of the two
    workers has died, [finalize] sends it the request and then waits on its
    response queue for good; no error comes, and the second worker is never
    told to terminate. *)
Lemma finalize_hangs_on_dead_worker :
  finalize (crash 2 two_workers.1.2) two_workers.2
    = ([Put 0 TerminateRequest; Get 1], Hangs) ∧
  ¬ handshake_is_bounded.
Proof.
  assert (finalize (crash 2 two_workers.1.2) two_workers.2
            = ([Put 0 TerminateRequest; Get 1], Hangs)) as H.
  { vm_compute. reflexivity. }
  split; [exact H|].
  intros Hb. apply (Hb (crash 2 two_workers.1.2) two_workers.2).
  by rewrite H.
Qed.

Lemma finalize_waits_without_timeout_two_workers :
  (∀ tr e, finalize two_workers.1.2 two_workers.2 ≠ (tr, Raises e)) ∧
  (((∃ entry, entry ∈ processes two_workers.2 ∧
              state_of (crash 2 two_workers.1.2) !! pid entry.1.1
                ≠ Some Running)) ∧
   (finalize (crash 2 two_workers.1.2) two_workers.2).2 = Hangs) ∧
  ((NoDup ((λ e, pid e.1.1) <$> processes two_workers.2) ∧
    (∀ entry, entry ∈ processes two_workers.2 →
              state_of two_workers.1.2 !! pid entry.1.1 = Some Running)) ∧
   ∃ tr w' self',
     finalize two_workers.1.2 two_workers.2 = (tr, Returns (w', self'))).
Proof.
  assert (∃ entry, entry ∈ processes two_workers.2 ∧
            state_of (crash 2 two_workers.1.2) !! pid entry.1.1
              ≠ Some Running) as Hdead.
  { eexists. split; [apply list_elem_of_here|]. vm_compute. discriminate. }
  assert (NoDup ((λ e, pid e.1.1) <$> processes two_workers.2)) as Hnd.
  { by apply (bool_decide_unpack _). }
  assert (∀ entry, entry ∈ processes two_workers.2 →
            state_of two_workers.1.2 !! pid entry.1.1 = Some Running) as Hrun.
  { intros entry He. simpl in He.
    apply elem_of_cons in He as [->|He]; [reflexivity|].
    apply list_elem_of_singleton in He as ->. reflexivity. }
  split; [|split].
  - apply (finalize_waits_without_timeout two_workers.1.2 two_workers.2).
  - split; [exact Hdead|].
    by apply (finalize_waits_without_timeout
                (crash 2 two_workers.1.2) two_workers.2).
  - split; [by split|].
    by apply (finalize_waits_without_timeout two_workers.1.2 two_workers.2).
Defined.

Example two_workers_finalized :
  (finalize two_workers.1.2 two_workers.2).1
    = [Put 0 TerminateRequest; Get 1; Join 2;
       Put 4 TerminateRequest; Get 5; Join 6].
Proof. vm_compute. reflexivity. Qed.

Lemma finalize_twice_two_workers :
  ∃ tr w1 self1,
    finalize two_workers.1.2 two_workers.2 = (tr, Returns (w1, self1)) ∧
    ∀ w2, finalize w2 self1 = ([], Returns (w2, self1)).
Proof.
  eexists _, _, _. split; [reflexivity|].
  eapply (finalize_twice_is_noop two_workers.1.2 two_workers.2).
  reflexivity.
Defined.

Lemma finalize_keeps_datapipes_two_workers :
  ∃ tr w1 self1,
    finalize two_workers.1.2 two_workers.2 = (tr, Returns (w1, self1)) ∧
    processes self1 = [] ∧
    datapipes self1 = datapipes two_workers.2 ∧
    num_workers self1 = num_workers two_workers.2 ∧
    multiprocessing_context self1
      = multiprocessing_context two_workers.2 ∧
    ∀ w2 dp tr2 r w3 self2,
      initialize w2 self1 dp = (tr2, r, w3, self2) →
      ∃ newp newd,
        processes self2 = processes self1 ++ newp ∧
        datapipes self2 = datapipes two_workers.2 ++ newd ∧
        length newp = Z.to_nat (num_workers two_workers.2) ∧
        length newd = Z.to_nat (num_workers two_workers.2) ∧
        deref self2 self_datapipes = datapipes two_workers.2 ++ newd ∧
        initialize_iteration self2 =
          initialize_iteration two_workers.2 ++
          ((λ d, ResetIterator (qw_id d)) <$> newd).
Proof.
  eexists _, _, _. split; [reflexivity|].
  eapply (finalize_keeps_datapipes two_workers.1.2 two_workers.2).
  reflexivity.
Defined.

(** After [finalize] and a second [initialize] the pool of two holds four
    queue wrappers, the first two of workers that are gone. *)
Example two_workers_respawned :
  ∃ w1 self1 tr2 r w3 self2,
    (finalize two_workers.1.2 two_workers.2).2 = Returns (w1, self1) ∧
    initialize w1 self1 numbers = (tr2, r, w3, self2) ∧
    qw_id <$> datapipes self2 = [3; 7; 11; 15] ∧
    (λ e, pid e.1.1) <$> processes self2 = [10; 14] ∧
    state_of w3 !! 2 = Some Exited.
Proof. eexists _, _, _, _, _, _. repeat split; vm_compute; reflexivity. Qed.

End PoolFacts.

Module DistFacts.
Import Graph Dist.
Implicit Types (rt : Runtime) (self : DistributedReadingService).
Implicit Types (dp : DataPipe).

Lemma apply_sharding_is_FullSync dp n i :
  is_FullSync (apply_sharding dp n i) = is_FullSync dp.
Proof. by destruct dp. Qed.

Lemma apply_sharding_fullsyncs dp n i :
  fullsyncs (apply_sharding dp n i) = fullsyncs dp.
Proof. induction dp; simpl; congruence. Qed.

(** C6.  In a started runtime [initialize] returns the sharded pipeline
    as it is when its tail is a full sync already, and with one full sync of
    the configured timeout put on top otherwise.  Either way the result ends
    in a full sync, and it has as many full syncs as the input, plus the one
    that was appended. *)
Theorem initialize_appends_fullsync_once rt self dp :
  is_available rt = true → is_initialized rt = true →
  ∃ dp',
    (initialize rt self dp).1 = Ok dp' ∧
    _datapipe (initialize rt self dp).2 = Some dp' ∧
    (is_FullSync dp = true →
       dp' = apply_sharding dp (get_world_size rt) (get_rank rt)) ∧
    (is_FullSync dp = false →
       dp' = FullSync (_timeout self)
               (apply_sharding dp (get_world_size rt) (get_rank rt))) ∧
    is_FullSync dp' = true ∧
    fullsyncs dp' = fullsyncs dp + (if is_FullSync dp then 0 else 1).
Proof.
  intros Ha Hi. unfold initialize. rewrite Ha, Hi. simpl.
  rewrite apply_sharding_is_FullSync.
  destruct (is_FullSync dp) eqn:Hfs; simpl; eexists; repeat split;
    try done; simpl;
    rewrite ?apply_sharding_is_FullSync, ?apply_sharding_fullsyncs;
    try done; lia.
Qed.

(** C7.  Without an available runtime the constructor raises.  Without an
    available and started runtime [initialize] raises, and the service is as
    it was: no group, no sharding, no pipeline. *)
Theorem distributed_runtime_is_required rt :
  (is_available rt = false →
   ∀ timeout,
     __init__ rt timeout
     = Raise (RuntimeError "Torch Distributed is required to be available")) ∧
  (is_available rt && is_initialized rt = false →
   ∀ self dp,
     initialize rt self dp
     = (Raise (RuntimeError "Torch Distributed is required to be initialized"),
        self)).
Proof.
  split.
  - intros H timeout. unfold __init__. by rewrite H.
  - intros H self dp. unfold initialize. by rewrite H.
Qed.

(** *** The theorems at work *)

Example initialize_rank1of4 :
  (initialize rank1of4 service30 shards).1
  = Ok (FullSync 1800
          (ShardingFilter (Some (4, 1)%Z)
             (IterableWrapper (UserIterable "files") true))).
Proof. reflexivity. Qed.

(** Initializing what [initialize] returned adds no second full sync. *)
Example initialize_again :
  (initialize rank1of4 service30
     (FullSync 1800 (ShardingFilter (Some (4, 1)%Z)
                       (IterableWrapper (UserIterable "files") true)))).1
  = Ok (FullSync 1800
          (ShardingFilter (Some (4, 1)%Z)
             (IterableWrapper (UserIterable "files") true))).
Proof. reflexivity. Qed.

Lemma initialize_appends_fullsync_once_rank1of4 :
  (is_available rank1of4 = true ∧ is_initialized rank1of4 = true) ∧
  ∃ dp',
    (initialize rank1of4 service30 shards).1 = Ok dp' ∧
    _datapipe (initialize rank1of4 service30 shards).2 = Some dp' ∧
    (is_FullSync shards = true →
       dp' = apply_sharding shards (get_world_size rank1of4)
               (get_rank rank1of4)) ∧
    (is_FullSync shards = false →
       dp' = FullSync (_timeout service30)
               (apply_sharding shards (get_world_size rank1of4)
                  (get_rank rank1of4))) ∧
    is_FullSync dp' = true ∧
    fullsyncs dp' = fullsyncs shards + (if is_FullSync shards then 0 else 1).
Proof.
  split; [split; reflexivity|].
  apply (initialize_appends_fullsync_once rank1of4 service30 shards);
    reflexivity.
Defined.

Lemma distributed_runtime_is_required_no_runtime :
  (is_available no_runtime = false ∧
   ∀ timeout,
     __init__ no_runtime timeout
     = Raise (RuntimeError "Torch Distributed is required to be available")) ∧
  (is_available no_runtime && is_initialized no_runtime = false ∧
   ∀ self dp,
     initialize no_runtime self dp
     = (Raise (RuntimeError "Torch Distributed is required to be initialized"),
        self)).
Proof.
  split; (split; [reflexivity|]).
  - apply (distributed_runtime_is_required no_runtime). reflexivity.
  - apply (distributed_runtime_is_required no_runtime). reflexivity.
Defined.

End DistFacts.

(** ** More on the merge iterator *)

Module MergeMore.
Import Merge MergeTrace MergeFacts.
Section more.
Context {Item : Type}.
Implicit Types (σ : gmap nat (list (tick Item))) (dp d : nat).
Implicit Types (ex l dps : list nat) (tr t : list (event Item)).

(** *** Bookkeeping of the projections *)

Lemma answers_of_app d tr1 tr2 :
  answers_of d (tr1 ++ tr2) = answers_of d tr1 ++ answers_of d tr2.
Proof. apply omap_app. Qed.

Lemma answers_of_busy_wait_same dp n :
  answers_of (Item:=Item) dp (busy_wait dp n) = replicate n NotAvailable.
Proof.
  induction n as [|n IH]; [done|]. cbn [busy_wait replicate].
  unfold answers_of in *. cbn [omap list_omap]. rewrite decide_True by done.
  by rewrite IH.
Qed.

Lemma answers_of_busy_wait_other d dp n :
  d ≠ dp → answers_of (Item:=Item) d (busy_wait dp n) = [].
Proof.
  intros Hne. induction n as [|n IH]; [done|]. cbn [busy_wait].
  unfold answers_of in *. cbn [omap list_omap].
  rewrite decide_False by done. exact IH.
Qed.

Lemma answers_busy n (w : list (tick Item)) :
  answers (replicate n NotReady ++ w) = replicate n NotAvailable ++ answers w.
Proof.
  unfold answers. rewrite fmap_app, fmap_replicate, <- (assoc app). done.
Qed.

Lemma pending_ext σ ex σ' ex' d :
  σ' !!! d = σ !!! d → (d ∈ ex' ↔ d ∈ ex) → pending σ' ex' d = pending σ ex d.
Proof.
  intros Hs He. unfold pending. rewrite Hs.
  repeat case_bool_decide; tauto.
Qed.

(** *** Every answer is asked for once *)

Lemma forever_answers fuel σ dp ex tr σ' ex' :
  forever fuel σ dp ex = Some (tr, σ', ex') → dp ∉ ex →
  ∀ d, answers_of d tr ++ pending σ' ex' d = pending σ ex d.
Proof.
  intros H Hdp d. apply forever_spec in H as [Hfr [n Hn]].
  destruct (decide (d = dp)) as [->|Hne].
  - destruct Hn as [[v (Hw & -> & ->)]|(Hw & Hw' & -> & ->)].
    + unfold pending. rewrite !bool_decide_eq_false_2 by done.
      rewrite Hw, answers_busy, answers_of_app, answers_of_busy_wait_same.
      unfold answers_of. cbn [omap list_omap]. rewrite decide_True by done.
      rewrite <- (assoc app). done.
    + unfold pending. rewrite bool_decide_eq_true_2 by set_solver.
      rewrite bool_decide_eq_false_2 by done.
      rewrite Hw, answers_of_app, answers_of_busy_wait_same.
      unfold answers_of, answers. cbn [omap list_omap].
      rewrite decide_True by done. by rewrite fmap_replicate, app_nil_r.
  - assert (answers_of d tr = []) as ->.
    { destruct Hn as [[v (_ & -> & _)]|(_ & _ & -> & _)];
        rewrite answers_of_app, answers_of_busy_wait_other by done;
        unfold answers_of; cbn [omap list_omap];
        by rewrite decide_False by done. }
    simpl. apply pending_ext; [by apply Hfr|].
    destruct Hn as [[v (_ & _ & ->)]|(_ & _ & _ & ->)]; set_solver.
Qed.

Lemma scan_answers fuel l : ∀ σ ex tr σ' ex',
  scan fuel σ l ex = Some (tr, σ', ex') →
  ∀ d, answers_of d tr ++ pending σ' ex' d = pending σ ex d.
Proof.
  induction l as [|dp l IH]; intros σ ex tr σ' ex' H d; simpl in H.
  { by simplify_eq. }
  case_bool_decide as Hdp; [|by eapply IH].
  destruct (forever fuel σ dp ex) as [[[t1 σ1] ex1]|] eqn:Hv; [|done].
  simpl in H.
  destruct (scan fuel σ1 l ex1) as [[[t2 σ2] ex2]|] eqn:Hs; [|done].
  simplify_eq/=.
  rewrite answers_of_app, <- (assoc app), (IH _ _ _ _ _ Hs).
  by eapply forever_answers.
Qed.

Lemma while_answers fuel dps : ∀ σ ex tr σ' ex',
  while fuel dps σ ex = Some (tr, σ', ex') →
  ∀ d, answers_of d tr ++ pending σ' ex' d = pending σ ex d.
Proof.
  induction fuel as [|fuel IH]; intros σ ex tr σ' ex' H d; [done|].
  cbn [while] in H. case_bool_decide as Hlen; [|by simplify_eq].
  destruct (scan (S fuel) σ dps ex) as [[[t1 σ1] ex1]|] eqn:Hs; [|done].
  simpl in H.
  destruct (while fuel dps σ1 ex1) as [[[t2 σ2] ex2]|] eqn:Hw; [|done].
  simplify_eq/=.
  rewrite answers_of_app, <- (assoc app), (IH _ _ _ _ _ Hw).
  by eapply scan_answers.
Qed.

(** Whatever the fuel, a run that returned has excluded every datapipe. *)
Lemma while_final fuel dps : NoDup dps → ∀ σ ex tr σ' ex',
  NoDup ex → ex ⊆ dps →
  while fuel dps σ ex = Some (tr, σ', ex') →
  NoDup ex' ∧ ex' ⊆ dps ∧ ∀ d, d ∈ dps → d ∈ ex'.
Proof.
  intros Hdps. induction fuel as [|fuel IH]; intros σ ex tr σ' ex' Hex Hsub H;
    [done|].
  cbn [while] in H. case_bool_decide as Hlen.
  - destruct (scan (S fuel) σ dps ex) as [[[t1 σ1] ex1]|] eqn:Hs; [|done].
    simpl in H.
    destruct (while fuel dps σ1 ex1) as [[[t2 σ2] ex2]|] eqn:Hw; [|done].
    simplify_eq/=.
    apply scan_frame in Hs as (_ & _ & Hs3 & Hs4).
    eapply IH; [by apply Hs4| |done].
    intros d Hd. apply Hs3 in Hd as [?|?]; auto.
  - simplify_eq. split; [done|]. split; [done|]. by apply exhausted_iff.
Qed.

Lemma iter_answers fuel dps σ tr σ' ex dp :
  NoDup dps → dp ∈ dps →
  iter fuel dps σ = Some (tr, σ', ex) →
  answers_of dp tr = answers (σ !!! dp).
Proof.
  intros Hnd Hdp Hrun. unfold iter in Hrun.
  pose proof (while_answers _ _ _ _ _ _ _ Hrun dp) as Ha.
  destruct (while_final _ _ Hnd _ _ _ _ _ (NoDup_nil_2) ltac:(set_solver) Hrun)
    as (_ & _ & Hall).
  unfold pending in Ha.
  rewrite bool_decide_eq_true_2 in Ha by auto.
  rewrite bool_decide_eq_false_2 in Ha by set_solver.
  by rewrite app_nil_r in Ha.
Qed.

(** X1.  In a run that returned, over distinct datapipes, each datapipe
    was asked exactly for the answers its worker had to give, in their order,
    and then once more, which is when it raised [StopIteration]. *)
Theorem iter_polls_each_answer_once fuel dps σ tr σ' ex dp :
  NoDup dps → dp ∈ dps →
  iter fuel dps σ = Some (tr, σ', ex) →
  answers_of dp tr = answers (σ !!! dp) ∧
  length (answers_of dp tr) = S (length (σ !!! dp)).
Proof.
  intros Hnd Hdp Hrun. rewrite (iter_answers _ _ _ _ _ _ _ Hnd Hdp Hrun).
  split; [done|]. unfold answers.
  rewrite length_app, length_fmap. simpl. lia.
Qed.

(** *** The merged stream is an interleaving *)

Lemma deliveries_app tr1 tr2 :
  deliveries (tr1 ++ tr2) = deliveries tr1 ++ deliveries tr2.
Proof. apply omap_app. Qed.

Lemma deliveries_busy_wait dp n : deliveries (Item:=Item) (busy_wait dp n) = [].
Proof. induction n; simpl; auto. Qed.

Lemma forever_deliveries fuel σ dp ex tr σ' ex' :
  forever fuel σ dp ex = Some (tr, σ', ex') →
  yields tr = (λ x, x.2) <$> deliveries tr ∧
  deliveries tr = option_list (next_item σ dp).
Proof.
  intros [_ [n [[v (Hw & -> & _)]|(Hw & _ & -> & _)]]]%forever_spec;
    rewrite yields_app, deliveries_app, yields_busy_wait,
      deliveries_busy_wait; unfold next_item; rewrite Hw.
  - by rewrite items_busy.
  - by rewrite items_only_busy.
Qed.

Lemma scan_yields_deliveries fuel l : ∀ σ ex tr σ' ex',
  scan fuel σ l ex = Some (tr, σ', ex') →
  yields tr = (λ x, x.2) <$> deliveries tr.
Proof.
  induction l as [|dp l IH]; intros σ ex tr σ' ex' H; simpl in H.
  { by simplify_eq. }
  case_bool_decide as Hdp; [|by eapply IH].
  destruct (forever fuel σ dp ex) as [[[t1 σ1] ex1]|] eqn:Hv; [|done].
  simpl in H.
  destruct (scan fuel σ1 l ex1) as [[[t2 σ2] ex2]|] eqn:Hs; [|done].
  simplify_eq/=.
  apply forever_deliveries in Hv as [Hv _]. apply IH in Hs.
  by rewrite yields_app, deliveries_app, fmap_app, Hv, Hs.
Qed.

Lemma while_yields_deliveries fuel dps : ∀ σ ex tr σ' ex',
  while fuel dps σ ex = Some (tr, σ', ex') →
  yields tr = (λ x, x.2) <$> deliveries tr.
Proof.
  induction fuel as [|fuel IH]; intros σ ex tr σ' ex' H; [done|].
  cbn [while] in H. case_bool_decide as Hlen; [|by simplify_eq].
  destruct (scan (S fuel) σ dps ex) as [[[t1 σ1] ex1]|] eqn:Hs; [|done].
  simpl in H.
  destruct (while fuel dps σ1 ex1) as [[[t2 σ2] ex2]|] eqn:Hw; [|done].
  simplify_eq/=.
  apply scan_yields_deliveries in Hs. apply IH in Hw.
  by rewrite yields_app, deliveries_app, fmap_app, Hs, Hw.
Qed.

Lemma delivered_by_answers dp tr :
  delivered_by dp tr
  = omap (λ r, match r with Returned v => Some v | _ => None end)
      (answers_of dp tr).
Proof.
  unfold delivered_by, deliveries, answers_of.
  induction tr as [|[d [v| |]|v|] tr IH]; cbn [omap list_omap]; auto.
  - simpl. case_decide; simpl; by rewrite IH.
  - case_decide; simpl; by rewrite IH.
  - case_decide; simpl; by rewrite IH.
Qed.

Lemma returned_answers (w : list (tick Item)) :
  omap (λ r, match r with Returned v => Some v | _ => None end) (answers w)
  = items w.
Proof.
  unfold answers, items. rewrite omap_app. csimpl. rewrite app_nil_r.
  induction w as [|[|v] w IH]; csimpl; by rewrite ?IH.
Qed.

(** X2.  The stream of a run that returned is an interleaving of the
    workers' streams: what is yielded is what the polls returned, in that
    order, and the values that came from one datapipe are the items of its
    worker in the worker's own order. *)
Theorem iter_interleaves fuel dps σ tr σ' ex :
  NoDup dps →
  iter fuel dps σ = Some (tr, σ', ex) →
  yields tr = (λ x, x.2) <$> deliveries tr ∧
  ∀ dp, dp ∈ dps → delivered_by dp tr = items (σ !!! dp).
Proof.
  intros Hnd Hrun. split; [by eapply while_yields_deliveries|].
  intros dp Hdp.
  by rewrite delivered_by_answers,
    (iter_answers _ _ _ _ _ _ _ Hnd Hdp Hrun), returned_answers.
Qed.

(** *** Round robin *)

Lemma next_item_ext l σ σ' :
  (∀ d, d ∈ l → σ' !!! d = σ !!! d) →
  omap (next_item σ') l = omap (next_item σ) l.
Proof.
  induction l as [|d l IH]; intros H; [done|]. cbn [omap list_omap].
  rewrite IH by (intros; apply H; set_solver).
  unfold next_item. rewrite (H d) by set_solver. done.
Qed.

(** X3.  One scan cycle over distinct datapipes hands over, in pool
    order, the next item of every datapipe that is not excluded and has an
    item left: one each, and nothing else. *)
Theorem scan_is_round_robin fuel l σ ex tr σ' ex' :
  NoDup l →
  scan fuel σ l ex = Some (tr, σ', ex') →
  deliveries tr = omap (next_item σ) (filter (λ d, d ∉ ex) l) ∧
  yields tr = (λ x, x.2) <$> deliveries tr.
Proof.
  intros Hnd Hs. split; [|by eapply scan_yields_deliveries].
  revert σ ex tr σ' ex' Hs.
  induction Hnd as [|dp l Hdpl Hnd IH]; intros σ ex tr σ' ex' H; simpl in H.
  { by simplify_eq. }
  rewrite filter_cons. case_bool_decide as Hdp.
  - destruct (forever fuel σ dp ex) as [[[t1 σ1] ex1]|] eqn:Hv; [|done].
    simpl in H.
    destruct (scan fuel σ1 l ex1) as [[[t2 σ2] ex2]|] eqn:Hs; [|done].
    simplify_eq/=.
    pose proof (forever_deliveries _ _ _ _ _ _ _ Hv) as [_ Hd].
    apply forever_spec in Hv as [Hfr [n Hn]].
    apply IH in Hs.
    rewrite (active_ext l ex ex1) in Hs.
    2:{ intros d Hdl.
        destruct Hn as [[v (_ & _ & ->)]|(_ & _ & _ & ->)]; set_solver. }
    rewrite (next_item_ext _ σ σ1) in Hs.
    2:{ intros d [_ Hdl]%list_elem_of_filter. apply Hfr. set_solver. }
    rewrite decide_True by done. cbn [omap list_omap].
    rewrite deliveries_app, Hd, Hs. by destruct (next_item σ dp).
  - rewrite decide_False by (intros ?; done). by eapply IH.
Qed.

(** *** Sleeping *)

Lemma sleeps_app tr1 tr2 : sleeps (tr1 ++ tr2) = sleeps tr1 + sleeps tr2.
Proof. unfold sleeps. by rewrite omap_app, length_app. Qed.

Lemma sleeps_busy_wait dp n : sleeps (Item:=Item) (busy_wait dp n) = n.
Proof.
  induction n as [|n IH]; [done|]. cbn [busy_wait]. unfold sleeps in *.
  cbn [omap list_omap length]. by rewrite IH.
Qed.

Lemma busy_prefix n (w : list (tick Item)) :
  busy (replicate n NotReady ++ w) = n + busy w.
Proof.
  induction n as [|n IH]; [done|]. cbn [replicate app]. unfold busy in *.
  cbn [omap list_omap length]. by rewrite IH.
Qed.

Lemma waits_ext σ ex σ' ex' d :
  σ' !!! d = σ !!! d → (d ∈ ex' ↔ d ∈ ex) → waits σ' ex' d = waits σ ex d.
Proof.
  intros Hs He. unfold waits. rewrite Hs.
  repeat case_bool_decide; tauto.
Qed.

Lemma waits_all_ext l σ ex σ' ex' :
  (∀ d, d ∈ l → σ' !!! d = σ !!! d ∧ (d ∈ ex' ↔ d ∈ ex)) →
  sum_list (waits σ' ex' <$> l) = sum_list (waits σ ex <$> l).
Proof.
  induction l as [|d l IH]; intros H; [done|]. csimpl.
  rewrite IH by (intros; apply H; set_solver).
  f_equal. apply waits_ext; apply H; set_solver.
Qed.

Lemma scan_sleeps fuel l : NoDup l → ∀ σ ex tr σ' ex',
  scan fuel σ l ex = Some (tr, σ', ex') →
  sleeps tr + sum_list (waits σ' ex' <$> l) = sum_list (waits σ ex <$> l).
Proof.
  induction 1 as [|dp l Hdpl Hnd IH]; intros σ ex tr σ' ex' H; simpl in H.
  { by simplify_eq. }
  case_bool_decide as Hdp.
  - destruct (forever fuel σ dp ex) as [[[t1 σ1] ex1]|] eqn:Hv; [|done].
    simpl in H.
    destruct (scan fuel σ1 l ex1) as [[[t2 σ2] ex2]|] eqn:Hs; [|done].
    simplify_eq/=.
    apply forever_spec in Hv as [Hfr [n Hn]].
    pose proof (scan_frame _ _ _ _ _ _ _ Hs) as (Hs1 & Hs2 & Hs3 & _).
    apply IH in Hs.
    assert (ex1 = ex ∨ ex1 = ex ++ [dp]) as Hex by naive_solver.
    rewrite (waits_all_ext l σ ex σ1 ex1) in Hs.
    2:{ intros d Hd. split; [apply Hfr; set_solver|].
        destruct Hex as [->| ->]; set_solver. }
    assert (waits σ' ex' dp = waits σ1 ex1 dp) as Hw.
    { apply waits_ext; [by apply Hs1|]. set_solver. }
    csimpl. rewrite Hw, sleeps_app.
    set (W' := sum_list (waits σ' ex' <$> l)) in *.
    set (W := sum_list (waits σ ex <$> l)) in *.
    destruct Hn as [[v (Hσ & -> & ->)]|(Hσ & Hσ1 & -> & ->)]; unfold waits.
    + rewrite !bool_decide_eq_false_2 by done.
      rewrite Hσ, busy_prefix, sleeps_app, sleeps_busy_wait.
      change (busy (Produce v :: σ1 !!! dp)) with (busy (σ1 !!! dp)).
      change (sleeps [Poll dp (Returned v); Yield v]) with 0. lia.
    + rewrite bool_decide_eq_true_2 by set_solver.
      rewrite bool_decide_eq_false_2 by done.
      rewrite Hσ, <- (app_nil_r (replicate n _)), busy_prefix, sleeps_app,
        sleeps_busy_wait.
      change (busy (Item:=Item) []) with 0.
      change (sleeps [Poll dp (StopIteration (Item:=Item))]) with 0. lia.
  - pose proof (scan_frame _ _ _ _ _ _ _ H) as (Hs1 & Hs2 & Hs3 & _).
    apply IH in H. csimpl.
    unfold waits at 1 3. rewrite !bool_decide_eq_true_2 by auto. done.
Qed.

Lemma while_sleeps fuel dps : NoDup dps → ∀ σ ex tr σ' ex',
  while fuel dps σ ex = Some (tr, σ', ex') →
  sleeps tr + sum_list (waits σ' ex' <$> dps) = sum_list (waits σ ex <$> dps).
Proof.
  intros Hdps. induction fuel as [|fuel IH]; intros σ ex tr σ' ex' H; [done|].
  cbn [while] in H. case_bool_decide as Hlen; [|by simplify_eq].
  destruct (scan (S fuel) σ dps ex) as [[[t1 σ1] ex1]|] eqn:Hs; [|done].
  simpl in H.
  destruct (while fuel dps σ1 ex1) as [[[t2 σ2] ex2]|] eqn:Hw; [|done].
  simplify_eq/=.
  apply (scan_sleeps _ _ Hdps) in Hs. apply IH in Hw.
  rewrite sleeps_app. lia.
Qed.

Lemma waits_exhausted σ ex l :
  (∀ d, d ∈ l → d ∈ ex) → sum_list (waits σ ex <$> l) = 0.
Proof.
  induction l as [|d l IH]; intros H; [done|]. csimpl.
  rewrite IH by (intros; apply H; set_solver).
  unfold waits. rewrite bool_decide_eq_true_2; [done|]. apply H. set_solver.
Qed.

Lemma waits_initially σ l :
  sum_list (waits σ [] <$> l) = sum_list ((λ dp, busy (σ !!! dp)) <$> l).
Proof. induction l as [|d l IH]; [done|]. csimpl. by rewrite IH. Qed.

(** X4.  A run that returned, over distinct datapipes, slept exactly as
    often as the workers were busy, all together: once for each
    [NotAvailable] and never otherwise. *)
Theorem iter_sleeps_once_per_busy_answer fuel dps σ tr σ' ex :
  NoDup dps →
  iter fuel dps σ = Some (tr, σ', ex) →
  sleeps tr = sum_list ((λ dp, busy (σ !!! dp)) <$> dps).
Proof.
  intros Hnd Hrun. unfold iter in Hrun.
  pose proof (while_sleeps _ _ Hnd _ _ _ _ _ Hrun) as Hs.
  destruct (while_final _ _ Hnd _ _ _ _ _ (NoDup_nil_2) ltac:(set_solver) Hrun)
    as (_ & _ & Hall).
  rewrite waits_exhausted, waits_initially in Hs by done. lia.
Qed.

(** *** A datapipe listed twice *)

Lemma short_exclusion_list dps ex :
  ¬ NoDup dps → NoDup ex → ex ⊆ dps → length ex < length dps.
Proof.
  intros Hdup Hex Hsub.
  assert (ex ⊆+ dps) as Hm by by apply NoDup_submseteq.
  pose proof (submseteq_length _ _ Hm) as Hle.
  destruct (decide (length ex = length dps)) as [Heq|]; [|lia].
  destruct Hdup. rewrite <- (submseteq_length_Permutation _ _ Hm); [done|lia].
Qed.

Lemma while_never_returns fuel dps : ¬ NoDup dps → ∀ σ ex,
  NoDup ex → ex ⊆ dps → while fuel dps σ ex = None.
Proof.
  intros Hdup. induction fuel as [|fuel IH]; intros σ ex Hex Hsub; [done|].
  cbn [while].
  rewrite bool_decide_eq_true_2 by by apply short_exclusion_list.
  destruct (scan (S fuel) σ dps ex) as [[[t1 σ1] ex1]|] eqn:Hs; [|done].
  simpl. apply scan_frame in Hs as (_ & _ & Hs3 & Hs4).
  rewrite IH; [done|by apply Hs4|].
  intros d Hd. apply Hs3 in Hd as [?|?]; auto.
Qed.

(** X5.  When a datapipe is listed twice in the pool, the loop never
    ends: no amount of fuel lets the run return, whatever the workers
    hold. *)
Theorem iter_never_returns_on_duplicates fuel dps σ :
  ¬ NoDup dps → iter fuel dps σ = None.
Proof.
  intros Hdup. apply while_never_returns; [done|apply NoDup_nil_2|set_solver].
Qed.

End more.

(** *** The theorems at work *)

Lemma iter_polls_each_answer_once_abc :
  ∃ tr σ' ex,
    (NoDup [0; 1; 2] ∧ 1 ∈ [0; 1; 2] ∧
     iter 7 [0; 1; 2] abc_pool = Some (tr, σ', ex)) ∧
    answers_of 1 tr = answers (abc_pool !!! 1) ∧
    length (answers_of 1 tr) = S (length (abc_pool !!! 1)).
Proof.
  eexists _, _, _. split.
  - split; [by apply (bool_decide_unpack _)|].
    split; [by apply (bool_decide_unpack _)|vm_compute; reflexivity].
  - eapply (iter_polls_each_answer_once 7 [0; 1; 2] abc_pool);
      [by apply (bool_decide_unpack _)|by apply (bool_decide_unpack _)
      |vm_compute; reflexivity].
Defined.

Lemma iter_interleaves_abc :
  ∃ tr σ' ex,
    (NoDup [0; 1; 2] ∧ iter 7 [0; 1; 2] abc_pool = Some (tr, σ', ex)) ∧
    yields tr = (λ x, x.2) <$> deliveries tr ∧
    ∀ dp, dp ∈ [0; 1; 2] → delivered_by dp tr = items (abc_pool !!! dp).
Proof.
  eexists _, _, _. split.
  - split; [by apply (bool_decide_unpack _)|vm_compute; reflexivity].
  - eapply (iter_interleaves 7 [0; 1; 2] abc_pool);
      [by apply (bool_decide_unpack _)|vm_compute; reflexivity].
Defined.

Lemma scan_is_round_robin_abc :
  ∃ tr σ' ex',
    (NoDup [0; 1; 2] ∧ scan 3 abc_pool [0; 1; 2] [] = Some (tr, σ', ex')) ∧
    deliveries tr = omap (next_item abc_pool) (filter (λ d, d ∉ []) [0; 1; 2]) ∧
    yields tr = (λ x, x.2) <$> deliveries tr.
Proof.
  eexists _, _, _. split.
  - split; [by apply (bool_decide_unpack _)|vm_compute; reflexivity].
  - eapply (scan_is_round_robin 3 [0; 1; 2] abc_pool []);
      [by apply (bool_decide_unpack _)|vm_compute; reflexivity].
Defined.

Example first_scan_of_abc :
  (λ r, deliveries r.1.1) <$> scan 3 abc_pool [0; 1; 2] []
  = Some [(0, "a"); (1, "c"); (2, "d")].
Proof. vm_compute. reflexivity. Qed.

Lemma iter_sleeps_once_per_busy_answer_abc :
  ∃ tr σ' ex,
    (NoDup [0; 1; 2] ∧ iter 7 [0; 1; 2] abc_pool = Some (tr, σ', ex)) ∧
    sleeps tr = sum_list ((λ dp, busy (abc_pool !!! dp)) <$> [0; 1; 2]).
Proof.
  eexists _, _, _. split.
  - split; [by apply (bool_decide_unpack _)|vm_compute; reflexivity].
  - eapply (iter_sleeps_once_per_busy_answer 7 [0; 1; 2] abc_pool);
      [by apply (bool_decide_unpack _)|vm_compute; reflexivity].
Defined.

Lemma iter_never_returns_on_twice_listed :
  ¬ NoDup twice_listed ∧ iter 50 twice_listed abc_pool = None.
Proof.
  split; [by apply (bool_decide_unpack _)|].
  apply (iter_never_returns_on_duplicates 50 twice_listed abc_pool).
  by apply (bool_decide_unpack _).
Defined.

End MergeMore.

(** ** More on the worker pool *)

Module PoolMore.
Import Graph Pool PoolInv PoolFacts.
Implicit Types (w : World) (self : PrototypeMultiProcessingReadingService).
Implicit Types (tr : list event) (p : Process) (dp : DataPipe).
Implicit Types (ps pre post : list (Process * nat * nat)) (K : Z).

(** *** Identities *)

Lemma init_wf w K ctx : pool_wf w (__init__ K ctx).
Proof. split; [apply NoDup_nil_2|constructor]. Qed.

Lemma spawn_worker_wf dp worker_id w self tr w' self' :
  pool_wf w self →
  spawn_worker dp worker_id w self = (tr, w', self') →
  pool_wf w' self'.
Proof.
  intros [Hnd Hlt] H.
  unfold spawn_worker, SpawnProcessForDataPipeline, start in H.
  simplify_eq. unfold pool_wf, objects in *. simpl.
  rewrite bind_app, fmap_app. csimpl.
  set (D := datapipes self ≫= wrapper_objects) in *.
  set (P := (λ e, pid e.1.1) <$> processes self) in *.
  set (n := next_id w) in *.
  assert ((D ++ [S (S (S n)); n; S n]) ++ P ++ [S (S n)]
          ≡ₚ [S (S (S n)); n; S n; S (S n)] ++ (D ++ P)) as ->.
  { rewrite (comm app D), (comm app P), <- !(assoc app). simpl.
    do 3 f_equiv. symmetry. apply Permutation_middle. }
  rewrite Forall_forall in Hlt. split.
  - apply NoDup_app. split; [|split; [|done]].
    + repeat (apply NoDup_cons; split; [set_solver by lia|]).
      apply NoDup_nil_2.
    + intros x Hx Hold. apply Hlt in Hold.
      repeat (apply elem_of_cons in Hx as [->|Hx]; [lia|]). by inv Hx.
  - apply Forall_app. split.
    + repeat (constructor; [lia|]). constructor.
    + apply Forall_forall. intros x Hx. apply Hlt in Hx. lia.
Qed.

Lemma spawn_workers_wf dp ids : ∀ w self tr w' self',
  pool_wf w self →
  spawn_workers dp ids w self = (tr, w', self') →
  pool_wf w' self'.
Proof.
  induction ids as [|worker_id ids IH]; intros w self tr w' self' Hwf H.
  { simpl in H. by simplify_eq. }
  cbn [spawn_workers] in H.
  destruct (spawn_worker dp worker_id w self) as [[tr1 w1] self1] eqn:H1.
  destruct (spawn_workers dp ids w1 self1) as [[tr2 w2] self2] eqn:H2.
  simplify_eq. eapply IH; [|done]. by eapply spawn_worker_wf.
Qed.

Lemma clean_all_next_id ps : ∀ w tr w',
  clean_all w ps = (tr, Returns w') → next_id w' = next_id w.
Proof.
  induction ps as [|entry ps IH]; intros w tr w' H; simpl in H.
  { by simplify_eq. }
  destruct (clean_me_cases w entry) as [[_ Hc]|[_ Hc]]; rewrite Hc in H;
    [|done].
  destruct (clean_all _ ps) as [tr2 o] eqn:Hr. simplify_eq.
  by apply IH in Hr.
Qed.

Lemma wrappers_distinct (ds : list QueueWrapper) :
  NoDup (ds ≫= wrapper_objects) → NoDup (qw_id <$> ds).
Proof.
  induction ds as [|d ds IH]; csimpl; intros H; [apply NoDup_nil_2|].
  unfold wrapper_objects at 1 in H. cbn [app] in H.
  apply NoDup_cons in H as [Hd H]. do 2 apply NoDup_cons in H as [_ H].
  apply NoDup_cons. split; [|auto].
  intros (d' & Heq & Hin)%list_elem_of_fmap. apply Hd.
  do 2 apply list_elem_of_further. apply list_elem_of_bind.
  exists d'. split; [|done]. rewrite Heq. apply list_elem_of_here.
Qed.

(** X6.  The pool never holds an object twice.  If its queue wrappers,
    their queues and its processes are pairwise distinct objects the world
    handed out, they still are after [initialize], whatever [num_workers] is,
    and after a [finalize] that came back; in particular the datapipes the
    merged stream iterates over are distinct. *)
Theorem pool_objects_stay_distinct w self :
  pool_wf w self →
  NoDup (qw_id <$> datapipes self) ∧
  (∀ dp tr r w' self',
     initialize w self dp = (tr, r, w', self') → pool_wf w' self') ∧
  (∀ tr w' self',
     finalize w self = (tr, Returns (w', self')) → pool_wf w' self').
Proof.
  intros Hwf. split; [|split].
  - destruct Hwf as [Hnd _]. unfold objects in Hnd.
    apply NoDup_app in Hnd as (Hnd & _ & _). by apply wrappers_distinct.
  - intros dp tr r w' self'. unfold initialize. case_decide.
    { intros ?. by simplify_eq. }
    destruct (spawn_workers _ _ _ _) as [[tr1 w1] self1] eqn:Hs.
    intros ?. simplify_eq. by eapply spawn_workers_wf.
  - intros tr w' self'. unfold finalize.
    destruct (clean_all w (processes self)) as [tr1 [w1|e|]] eqn:Hc;
      intros ?; simplify_eq.
    apply clean_all_next_id in Hc.
    destruct Hwf as [Hnd Hlt]. unfold pool_wf, objects in *. simpl.
    rewrite app_nil_r, Hc.
    apply NoDup_app in Hnd as (? & _ & _).
    apply Forall_app in Hlt as [? _]. done.
Qed.

(** *** A negative number of workers *)

(** X7.  With a negative [num_workers] nothing is started, as
    [range] is empty, but the test for zero does not catch it: what comes
    back is the merged stream over [self.datapipes], not the datapipe that
    was passed in.  On a new service that stream is empty. *)
Theorem initialize_with_negative_workers w self dp :
  (num_workers self < 0)%Z →
  initialize w self dp
  = ([], IterableWrapper (IterateQueueDataPipes self_datapipes) false, w, self) ∧
  (datapipes self = [] →
   ∀ (Item : Type) fuel (σ : gmap nat (list (Merge.tick Item))),
     Merge.iter (S fuel) (qw_id <$> deref self self_datapipes) σ
     = Some ([], σ, [])).
Proof.
  intros HK. split.
  - unfold initialize. rewrite decide_False by lia.
    rewrite seqZ_nil by lia. done.
  - intros Hd Item fuel σ. simpl. by rewrite Hd.
Qed.

(** *** What [finalize] sends *)

Lemma join_all_next_id ps : ∀ w, next_id (join_all ps w) = next_id w.
Proof. induction ps as [|e ps IH]; intros w; [done|]. simpl. by rewrite IH. Qed.

Lemma join_all_state ps : ∀ w q,
  state_of (join_all ps w) !! q =
    if decide (q ∈ (λ e, pid e.1.1) <$> ps) then Some Exited
    else state_of w !! q.
Proof.
  induction ps as [|e ps IH]; intros w q; [done|]. simpl. rewrite IH. csimpl.
  destruct (decide (q ∈ (λ e, pid e.1.1) <$> ps)) as [Hin|Hnin].
  - rewrite decide_True by set_solver. done.
  - destruct (decide (q = pid e.1.1)) as [->|Hne].
    + rewrite decide_True by set_solver. apply lookup_insert_eq.
    + rewrite decide_False by set_solver. by apply lookup_insert_ne.
Qed.

Lemma clean_all_app pre : ∀ w rest,
  NoDup ((λ e, pid e.1.1) <$> pre) →
  (∀ e, e ∈ pre → state_of w !! pid e.1.1 = Some Running) →
  clean_all w (pre ++ rest)
  = ((pre ≫= terminate) ++ (clean_all (join_all pre w) rest).1,
     (clean_all (join_all pre w) rest).2).
Proof.
  induction pre as [|entry pre IH]; intros w rest Hnd Hrun.
  { simpl. by destruct (clean_all w rest). }
  csimpl in Hnd. apply NoDup_cons in Hnd as [Hnotin Hnd]. simpl.
  destruct (clean_me_cases w entry) as [[_ ->]|[Hn _]].
  2:{ destruct Hn. apply Hrun. set_solver. }
  rewrite IH; [done|done|].
  intros e He. unfold join. simpl. rewrite lookup_insert_ne.
  - apply Hrun. set_solver.
  - intros Heq. apply Hnotin. rewrite Heq.
    by apply (list_elem_of_fmap_2 (λ e, pid e.1.1)).
Qed.

(** X8.  When the processes of the pool are distinct and all running,
    [finalize] deals with them one after the other in pool order: request,
    wait, join.  It comes back with every one of them exited, the
    other processes as they were and an empty [processes]. *)
Theorem finalize_terminates_in_pool_order w self :
  NoDup ((λ e, pid e.1.1) <$> processes self) →
  (∀ e, e ∈ processes self → state_of w !! pid e.1.1 = Some Running) →
  ∃ w',
    finalize w self
    = (processes self ≫= terminate,
       Returns (w', {| num_workers := num_workers self;
                       multiprocessing_context := multiprocessing_context self;
                       processes := [];
                       datapipes := datapipes self |})) ∧
    next_id w' = next_id w ∧
    (∀ e, e ∈ processes self → state_of w' !! pid e.1.1 = Some Exited) ∧
    (∀ q, q ∉ (λ e, pid e.1.1) <$> processes self →
          state_of w' !! q = state_of w !! q).
Proof.
  intros Hnd Hrun. exists (join_all (processes self) w).
  unfold finalize.
  rewrite <- (app_nil_r (processes self)) at 1.
  rewrite clean_all_app by done. simpl. rewrite app_nil_r.
  split; [done|]. split; [apply join_all_next_id|]. split.
  - intros e He. rewrite join_all_state, decide_True; [done|].
    by apply (list_elem_of_fmap_2 (λ e, pid e.1.1)).
  - intros q Hq. by rewrite join_all_state, decide_False.
Qed.

(** X9.  When the pool is [pre ++ e :: post], the processes of [pre] are
    distinct and running and that of [e] is not, [finalize] terminates and
    joins the workers of [pre], sends [e] its request and waits for the
    answer for good: the workers of [post] are sent nothing. *)
Theorem finalize_stops_at_first_dead_worker w self pre e post :
  processes self = pre ++ e :: post →
  NoDup ((λ e, pid e.1.1) <$> pre) →
  (∀ e', e' ∈ pre → state_of w !! pid e'.1.1 = Some Running) →
  state_of w !! pid e.1.1 ≠ Some Running →
  finalize w self
  = ((pre ≫= terminate) ++ [Put e.1.2 TerminateRequest; Get e.2], Hangs).
Proof.
  intros Hps Hnd Hrun Hdead. unfold finalize. rewrite Hps.
  rewrite clean_all_app by done. cbn [clean_all].
  destruct (clean_me_cases (join_all pre w) e) as [[Hr _]|[_ ->]]; [|done].
  rewrite join_all_state in Hr. case_decide; [done|]. by destruct Hdead.
Qed.

(** *** The theorems at work *)

Lemma two_workers_wf : pool_wf two_workers.1.2 two_workers.2.
Proof. split; apply (bool_decide_unpack _); vm_compute; exact I. Defined.

Lemma pool_objects_stay_distinct_two_workers :
  pool_wf two_workers.1.2 two_workers.2 ∧
  NoDup (qw_id <$> datapipes two_workers.2) ∧
  (∀ dp tr r w' self',
     initialize two_workers.1.2 two_workers.2 dp = (tr, r, w', self') →
     pool_wf w' self') ∧
  (∀ tr w' self',
     finalize two_workers.1.2 two_workers.2 = (tr, Returns (w', self')) →
     pool_wf w' self').
Proof.
  split; [exact two_workers_wf|].
  apply (pool_objects_stay_distinct two_workers.1.2 two_workers.2).
  exact two_workers_wf.
Defined.

Lemma initialize_with_minus_one_worker :
  (num_workers (__init__ (-1) None) < 0)%Z ∧
  initialize empty_world (__init__ (-1) None) numbers
  = ([], IterableWrapper (IterateQueueDataPipes self_datapipes) false,
     empty_world, __init__ (-1) None) ∧
  (datapipes (__init__ (-1) None) = [] →
   ∀ (Item : Type) fuel (σ : gmap nat (list (Merge.tick Item))),
     Merge.iter (S fuel)
       (qw_id <$> deref (__init__ (-1) None) self_datapipes) σ
     = Some ([], σ, [])).
Proof.
  split; [reflexivity|].
  apply (initialize_with_negative_workers empty_world (__init__ (-1) None)
           numbers).
  reflexivity.
Defined.

Lemma finalize_terminates_two_workers_in_order :
  (NoDup ((λ e, pid e.1.1) <$> processes two_workers.2) ∧
   (∀ e, e ∈ processes two_workers.2 →
         state_of two_workers.1.2 !! pid e.1.1 = Some Running)) ∧
  ∃ w',
    finalize two_workers.1.2 two_workers.2
    = (processes two_workers.2 ≫= terminate,
       Returns (w', {| num_workers := num_workers two_workers.2;
                       multiprocessing_context :=
                         multiprocessing_context two_workers.2;
                       processes := [];
                       datapipes := datapipes two_workers.2 |})) ∧
    next_id w' = next_id two_workers.1.2 ∧
    (∀ e, e ∈ processes two_workers.2 →
          state_of w' !! pid e.1.1 = Some Exited) ∧
    (∀ q, q ∉ (λ e, pid e.1.1) <$> processes two_workers.2 →
          state_of w' !! q = state_of two_workers.1.2 !! q).
Proof.
  assert (NoDup ((λ e, pid e.1.1) <$> processes two_workers.2)) as Hnd.
  { by apply (bool_decide_unpack _). }
  assert (∀ e, e ∈ processes two_workers.2 →
            state_of two_workers.1.2 !! pid e.1.1 = Some Running) as Hrun.
  { intros e He. simpl in He.
    apply elem_of_cons in He as [->|He]; [reflexivity|].
    apply list_elem_of_singleton in He as ->. reflexivity. }
  split; [by split|].
  by apply (finalize_terminates_in_pool_order two_workers.1.2 two_workers.2).
Defined.

(** Of four workers the second has died: the first is terminated and
    joined, the second is waited for, the third and fourth hear nothing. *)
Lemma finalize_stops_at_second_of_four :
  (processes four_workers.2
   = [entry_of 2 0 1 0] ++ entry_of 6 4 5 1
       :: [entry_of 10 8 9 0; entry_of 14 12 13 1] ∧
   NoDup ((λ e, pid e.1.1) <$> [entry_of 2 0 1 0]) ∧
   (∀ e', e' ∈ [entry_of 2 0 1 0] →
          state_of (crash 6 four_workers.1.2) !! pid e'.1.1 = Some Running) ∧
   state_of (crash 6 four_workers.1.2) !! pid (entry_of 6 4 5 1).1.1
     ≠ Some Running) ∧
  finalize (crash 6 four_workers.1.2) four_workers.2
  = (([entry_of 2 0 1 0] ≫= terminate)
     ++ [Put (entry_of 6 4 5 1).1.2 TerminateRequest; Get (entry_of 6 4 5 1).2],
     Hangs).
Proof.
  assert (processes four_workers.2
          = [entry_of 2 0 1 0] ++ entry_of 6 4 5 1
              :: [entry_of 10 8 9 0; entry_of 14 12 13 1]) as Hps
    by reflexivity.
  assert (∀ e', e' ∈ [entry_of 2 0 1 0] →
            state_of (crash 6 four_workers.1.2) !! pid e'.1.1 = Some Running)
    as Hrun.
  { intros e' He. apply list_elem_of_singleton in He as ->. reflexivity. }
  assert (state_of (crash 6 four_workers.1.2) !! pid (entry_of 6 4 5 1).1.1
            ≠ Some Running) as Hdead by (vm_compute; discriminate).
  assert (NoDup ((λ e, pid e.1.1) <$> [entry_of 2 0 1 0])) as Hnd
    by by apply (bool_decide_unpack _).
  split; [by repeat split|].
  exact (finalize_stops_at_first_dead_worker
           (crash 6 four_workers.1.2) four_workers.2 _ _ _ Hps Hnd Hrun Hdead).
Defined.

Example four_workers_second_dead :
  finalize (crash 6 four_workers.1.2) four_workers.2
  = ([Put 0 TerminateRequest; Get 1; Join 2; Put 4 TerminateRequest; Get 5],
     Hangs).
Proof. vm_compute. reflexivity. Qed.

End PoolMore.

(** ** On [MultiProcessingReadingService] *)

Module LoaderFacts.
Import Graph Loader.
Section facts.
Context {float callable : Type}.
Implicit Types (self : MultiProcessingReadingService float callable).


End facts.


End LoaderFacts.

(** ** More on [DistributedReadingService] *)

Module DistMore.
Import Graph Dist DistIter DistFacts.
Implicit Types (rt : Runtime) (self : DistributedReadingService).
Implicit Types (dp : DataPipe).

Lemma apply_sharding_twice dp n i :
  apply_sharding (apply_sharding dp n i) n i = apply_sharding dp n i.
Proof. induction dp; simpl; congruence. Qed.

(** X11.  Initializing again what [initialize] returned, in the same
    runtime, gives the same pipeline back: no second full sync is put on
    top, and the sharding stays. *)
Theorem initialize_is_stable rt self dp dp' :
  is_available rt = true → is_initialized rt = true →
  (initialize rt self dp).1 = Ok dp' →
  ∀ self2, (initialize rt self2 dp').1 = Ok dp'.
Proof.
  intros Ha Hi. unfold initialize. rewrite Ha, Hi. simpl.
  rewrite apply_sharding_is_FullSync. intros H self2.
  destruct (is_FullSync dp) eqn:Hfs; simpl in H; simplify_eq; simpl.
  - by rewrite apply_sharding_twice, apply_sharding_is_FullSync, Hfs.
  - by rewrite apply_sharding_twice.
Qed.

Section seed.
Variable apply_random_seed : DataPipe → Z → DataPipe.



Lemma share_seed_is_rank0 draws rank :
  rank < length draws → _share_seed draws rank = draws !!! 0.
Proof.
  intros Hr. unfold _share_seed, broadcast.
  rewrite list_lookup_total_alt, list_lookup_fmap.
  destruct (lookup_lt_is_Some_2 draws rank Hr) as [x ->]. done.
Qed.

(** X13.  Whatever the ranks drew, [initialize_iteration] seeds the
    pipeline of every rank of the group with the draw of rank 0: the seed
    depends neither on the rank nor on what that rank drew itself. *)
Theorem initialize_iteration_shares_seed rt1 rt2 draws self1 self2 dp1 dp2 :
  (0 ≤ get_rank rt1 < Z.of_nat (length draws))%Z →
  (0 ≤ get_rank rt2 < Z.of_nat (length draws))%Z →
  _datapipe self1 = Some dp1 → _datapipe self2 = Some dp2 →
  ∃ self1' self2',
    (initialize_iteration apply_random_seed rt1 draws self1).2 = inr self1' ∧
    (initialize_iteration apply_random_seed rt2 draws self2).2 = inr self2' ∧
    _datapipe self1' = Some (apply_random_seed dp1 (draws !!! 0)) ∧
    _datapipe self2' = Some (apply_random_seed dp2 (draws !!! 0)).
Proof.
  intros Hr1 Hr2 H1 H2. unfold initialize_iteration. rewrite H1, H2.
  rewrite !share_seed_is_rank0 by lia. by eexists _, _.
Qed.

End seed.

(** *** The theorems at work *)

Lemma initialize_is_stable_rank1of4 :
  ∃ dp',
    (is_available rank1of4 = true ∧ is_initialized rank1of4 = true ∧
     (initialize rank1of4 service30 shards).1 = Ok dp') ∧
    ∀ self2, (initialize rank1of4 self2 dp').1 = Ok dp'.
Proof.
  eexists. split; [repeat split; reflexivity|].
  apply (initialize_is_stable rank1of4 service30 shards); reflexivity.
Defined.


Lemma initialize_iteration_shares_seed_ranks_0_and_1 :
  ((0 ≤ get_rank rank1of4 < Z.of_nat (length [7; 3; 9; 1]%Z))%Z ∧
   (0 ≤ get_rank rank0of4 < Z.of_nat (length [7; 3; 9; 1]%Z))%Z ∧
   _datapipe (initialize rank1of4 service30 shards).2
     = Some (FullSync 1800 (ShardingFilter (Some (4, 1)%Z)
               (IterableWrapper (UserIterable "files") true))) ∧
   _datapipe (initialize rank0of4 service30 shards).2
     = Some (FullSync 1800 (ShardingFilter (Some (4, 0)%Z)
               (IterableWrapper (UserIterable "files") true)))) ∧
  ∃ self1' self2',
    (initialize_iteration mark_seed rank1of4 [7; 3; 9; 1]%Z
       (initialize rank1of4 service30 shards).2).2 = inr self1' ∧
    (initialize_iteration mark_seed rank0of4 [7; 3; 9; 1]%Z
       (initialize rank0of4 service30 shards).2).2 = inr self2' ∧
    _datapipe self1'
      = Some (mark_seed
                (FullSync 1800 (ShardingFilter (Some (4, 1)%Z)
                   (IterableWrapper (UserIterable "files") true)))
                ([7; 3; 9; 1]%Z !!! 0)) ∧
    _datapipe self2'
      = Some (mark_seed
                (FullSync 1800 (ShardingFilter (Some (4, 0)%Z)
                   (IterableWrapper (UserIterable "files") true)))
                ([7; 3; 9; 1]%Z !!! 0)).
Proof.
  split; [repeat split; (reflexivity || (simpl; lia))|].
  apply (initialize_iteration_shares_seed mark_seed rank1of4 rank0of4
           [7; 3; 9; 1]%Z); (reflexivity || (simpl; lia)).
Defined.

End DistMore.
